(** * TPIP manifest updater (scripts/update-tpip.ts)

    A shallow embedding of the script that reconciles the tracked
    third-party license manifest with the dependencies found in
    package-lock.json, and the properties of it that the specification
    states.

    Conventions of the embedding.
    - A JS object used as a string-keyed map is the list of its own
      properties in the order in which Object.keys enumerates them: the
      keys that are array indices first, in ascending order, then the
      other keys in the order of their creation.  The keys of a
      well-formed object are distinct.  Every such object is an object
      literal or comes from JSON.parse: it inherits the properties of
      Object.prototype, which the operator [in] and a property read see
      and Object.keys does not.
    - The inputs are the values JSON.parse returns, typed as the script
      declares them; node_modules is the function that gives the parsed
      package.json of an installed package, if that file exists.
    - Console output and the final file write are the effects of a run;
      they are collected, in order, in a trace.
    - A thrown exception is a completion of its own.  The recursion of
      resolveInternal is bounded by the depth of the call stack; exceeding
      it raises RangeError, which main's catch clause handles like any
      other exception. *)

From Stdlib Require Import String Ascii List Bool Arith NArith Lia.
Import ListNotations.
Open Scope string_scope.
Open Scope list_scope.

Set Implicit Arguments.

(** ** JS objects as property lists *)

Definition JsObject (V : Type) : Type := list (string * V).

(** The names of the properties of Object.prototype. *)
Definition Object_prototype : list string :=
  [ "constructor"; "__defineGetter__"; "__defineSetter__"; "hasOwnProperty";
    "__lookupGetter__"; "__lookupSetter__"; "isPrototypeOf";
    "propertyIsEnumerable"; "toString"; "valueOf"; "__proto__";
    "toLocaleString" ].

(** [k in {}] *)
Definition inherited (k : string) : bool := existsb (String.eqb k) Object_prototype.

(** [`${({})[name]}`] for a name of Object.prototype: the accessor
    __proto__ gives the prototype itself, an object; the other properties
    are native functions. *)
Definition prototype_text (name : string) : string :=
  if name =? "__proto__" then "[object Object]"
  else if name =? "constructor" then "function Object() { [native code] }"
  else "function " ++ name ++ "() { [native code] }".

Definition digit (c : ascii) : option N :=
  let n := N_of_ascii c in
  if ((48 <=? n) && (n <=? 57))%N then Some (n - 48)%N else None.

Fixpoint decimal (acc : N) (s : string) : option N :=
  match s with
  | EmptyString => Some acc
  | String c s' =>
      match digit c with
      | Some d => decimal (acc * 10 + d)%N s'
      | None => None
      end
  end.

(** The array index a property name denotes, if it denotes one: the name
    is a decimal numeral without a leading zero, below 2^32 - 1. *)
Definition array_index (k : string) : option N :=
  match k with
  | EmptyString => None
  | String c rest =>
      if (c =? "0")%char && negb (rest =? "") then None
      else
        match decimal 0 k with
        | Some n => if (n <? 4294967295)%N then Some n else None
        | None => None
        end
  end.

Section JsObjects.
Variable V : Type.

(** [o[k]], [None] standing for undefined *)
Fixpoint js_get (k : string) (o : JsObject V) : option V :=
  match o with
  | [] => None
  | (k', v) :: o' => if k' =? k then Some v else js_get k o'
  end.

(** [Object.hasOwn(o, k)] *)
Definition js_own (k : string) (o : JsObject V) : bool :=
  match js_get k o with Some _ => true | None => false end.

(** [k in o]: an own property, or one of Object.prototype *)
Definition js_in (k : string) (o : JsObject V) : bool :=
  js_own k o || inherited k.

Fixpoint js_replace (k : string) (v : V) (o : JsObject V) : JsObject V :=
  match o with
  | [] => []
  | (k', v') :: o' =>
      if k' =? k then (k', v) :: o' else (k', v') :: js_replace k v o'
  end.

(** A new array index [n] goes before the first key that is a greater
    index or no index. *)
Fixpoint js_insert (n : N) (k : string) (v : V) (o : JsObject V) : JsObject V :=
  match o with
  | [] => [(k, v)]
  | (k', v') :: o' =>
      match array_index k' with
      | Some n' =>
          if (n' <? n)%N then (k', v') :: js_insert n k v o' else (k, v) :: o
      | None => (k, v) :: o
      end
  end.

(** [o[k] = v]: an existing property keeps its place; a new one goes where
    Object.keys will enumerate it, among the array indices or last *)
Definition js_set (k : string) (v : V) (o : JsObject V) : JsObject V :=
  if js_own k o then js_replace k v o
  else
    match array_index k with
    | Some n => js_insert n k v o
    | None => o ++ [(k, v)]
    end.

Definition Object_keys (o : JsObject V) : list string := map fst o.

Definition Object_entries (o : JsObject V) : list (string * V) := o.
End JsObjects.

(** [s.startsWith(p)] *)
Definition startsWith (s p : string) : bool := String.prefix p s.

(** ** The types of the script *)

Module Package.
Record t : Type := mk {
  version : string;
  dependencies : option (JsObject string)
}.
End Package.

Module PackageJson.
Record t : Type := mk {
  name : string;
  version : string;
  license : string
}.
End PackageJson.

Module PackageLockJson.
Record t : Type := mk {
  packages : JsObject Package.t
}.
End PackageLockJson.

Module TpipDependency.
Record t : Type := mk {
  name : string;
  version : string;
  spdx : string;
  url : string;
  license : string
}.
End TpipDependency.

Definition FIXME : string := "<FIXME>".

(** node_modules/<name>/package.json, parsed, when the file exists *)
Definition NodeModules : Type := string -> option PackageJson.t.

(** ** Effects and completions *)

Inductive JsError : Type :=
| Error (message : string)
| RangeError (message : string).

Definition message (e : JsError) : string :=
  match e with Error m => m | RangeError m => m end.

(** [JSON.stringify(value, undefined, space)] *)
Record Json : Type := JSON_stringify {
  json_value : list TpipDependency.t;
  json_space : nat
}.

Inductive Effect : Type :=
| console_log (line : string)
| console_warn (line : string)
| console_error (line : string)
| console_error_value (e : JsError)
| writeFileSync (path : string) (data : Json).

Inductive Completion (A : Type) : Type :=
| Normal (a : A)
| Throw (e : JsError).
Arguments Throw {A} e.

(** A computation: how it completes, and the effects it had until then. *)
Definition M (A : Type) : Type := (Completion A * list Effect)%type.

Definition ret {A} (a : A) : M A := (Normal a, []).

Definition throw {A} (e : JsError) : M A := (Throw e, []).

Definition emit (e : Effect) : M unit := (Normal tt, [e]).

Definition bind {A B} (m : M A) (k : A -> M B) : M B :=
  match m with
  | (Normal a, t) => let (c, t') := k a in (c, t ++ t')
  | (Throw e, t) => (Throw e, t)
  end.

(** [try { m } catch (e) { handler e }] *)
Definition try_catch {A} (m : M A) (handler : JsError -> M A) : M A :=
  match m with
  | (Normal a, t) => (Normal a, t)
  | (Throw e, t) => let (c, t') := handler e in (c, t ++ t')
  end.

Arguments bind : simpl never.
Arguments try_catch : simpl never.

Declare Scope js_scope.
Delimit Scope js_scope with js.
Notation "x <- m ;; k" := (bind m (fun x => k))
  (at level 61, m at next level, right associativity) : js_scope.
Notation "' pat <- m ;; k" := (bind m (fun x => match x with pat => k end))
  (at level 61, pat pattern, m at next level, right associativity) : js_scope.
Notation "m ;; k" := (bind m (fun _ => k))
  (at level 61, right associativity) : js_scope.
Open Scope js_scope.

Definition completion {A} (m : M A) : Completion A := fst m.
Definition trace {A} (m : M A) : list Effect := snd m.

(** [for (const x of xs) { s = body x s }], [s] being the variables the
    body assigns and the objects it mutates *)
Fixpoint forOf {A S} (body : A -> S -> M S) (xs : list A) (s : S) : M S :=
  match xs with
  | [] => ret s
  | x :: xs' => s' <- body x s ;; forOf body xs' s'
  end.

(** ** The functions of the script *)

Definition node_module (name : string) : string :=
  if name =? "" then name else "node_modules/" ++ name.

(** [lockJson.packages[node_module]] *)
Definition locked (name : string) (lockJson : PackageLockJson.t)
  : option Package.t :=
  js_get (node_module name) (PackageLockJson.packages lockJson).

Definition getPackage (name : string) (lockJson : PackageLockJson.t)
  : M (option Package.t) :=
  if js_in (node_module name) (PackageLockJson.packages lockJson) then
    ret (js_get (node_module name) (PackageLockJson.packages lockJson))
  else
    emit (console_error ("Package " ++ name ++ " not found ...")) ;;
    ret None.

Definition hasFixMe (dependency : TpipDependency.t) : bool :=
  (TpipDependency.version dependency =? FIXME) ||
  (TpipDependency.license dependency =? FIXME) ||
  (TpipDependency.spdx dependency =? FIXME) ||
  (TpipDependency.url dependency =? FIXME).

Definition getLicense (node_modules : NodeModules) (name : string) : M string :=
  match node_modules name with
  | None =>
      emit (console_warn ("No package.json for " ++ name ++ " to get license from.")) ;;
      ret "UNKNOWN"
  | Some json => ret (PackageJson.license json)
  end.

(** [`${v}`] for a possibly undefined string *)
Definition template (v : option string) : string :=
  match v with Some s => s | None => "undefined" end.

(** [a !== b] on possibly undefined strings *)
Definition strict_neq (a b : option string) : bool :=
  match a, b with
  | Some x, Some y => negb (x =? y)
  | None, None => false
  | _, _ => true
  end.

(** The body of the loop of resolveInternal; [resolve] is the recursive
    call, [results] the accumulator object shared by all calls. *)
Definition resolveInternal_body
    (resolve : string -> JsObject string -> M (JsObject string))
    (lockJson : PackageLockJson.t)
    (entry : string * string) (results : JsObject string)
  : M (JsObject string) :=
  let (dependency, range) := entry in
  if startsWith dependency "@arm-debug" then
    resolve dependency results
  else if negb (startsWith dependency "@types") then
    if js_in dependency results then
      dependencyPackage <- getPackage dependency lockJson ;;
      let lockedVersion := option_map Package.version dependencyPackage in
      match js_get dependency results with
      | Some recorded =>
          if strict_neq (Some recorded) lockedVersion then
            emit (console_warn (" Conflicting dependency version " ++ dependency
                                ++ ": " ++ recorded
                                ++ " vs " ++ template lockedVersion)) ;;
            ret results
          else ret results
      | None =>
          (* [results[dependency]] is the property of Object.prototype, a
             function or an object: [!==] holds against any version *)
          emit (console_warn (" Conflicting dependency version " ++ dependency
                              ++ ": " ++ prototype_text dependency
                              ++ " vs " ++ template lockedVersion)) ;;
          ret results
      end
    else ret (js_set dependency range results)
  else ret results.

(** [depth] is the number of nested calls the call stack still admits.
    The loop runs over [Object.keys(dependencies)] and reads
    [dependencies[dependency]] in its body: it runs over the entries. *)
Fixpoint resolveInternal (depth : nat) (lockJson : PackageLockJson.t)
    (name : string) (results : JsObject string) : M (JsObject string) :=
  match depth with
  | O => throw (RangeError "Maximum call stack size exceeded")
  | S depth' =>
      nodePackage <- getPackage name lockJson ;;
      match nodePackage with
      | None => throw (Error ("Cannot resolve transitive dependencies of " ++ name))
      | Some nodePackage =>
          let dependencies :=
            match Package.dependencies nodePackage with
            | Some d => d
            | None => []
            end in
          forOf (resolveInternal_body (resolveInternal depth' lockJson) lockJson)
                (Object_entries dependencies) results
      end
  end.

(** [resolveInternal(lockJson)]: the name defaults to the root package
    [''] and the accumulator to a fresh object. *)
Definition resolveInternal_root (depth : nat) (lockJson : PackageLockJson.t)
  : M (JsObject string) :=
  resolveInternal depth lockJson "" [].

(** Lines 95-100 of main: the loop that looks for placeholders. *)
Definition main_check (dependency : TpipDependency.t) (result : nat) : M nat :=
  if hasFixMe dependency then
    emit (console_error (" " ++ TpipDependency.name dependency
                         ++ " needs to be completed!")) ;;
    ret 1
  else ret result.

(** Lines 118-128 of main: the loop that appends an entry for each missing
    dependency. *)
Definition main_push (node_modules : NodeModules) (lockJson : PackageLockJson.t)
    (dependency : string) (tpipJson : list TpipDependency.t)
  : M (list TpipDependency.t) :=
  lockedPackage <- getPackage dependency lockJson ;;
  emit (console_error ("  - " ++ dependency ++ ": "
                       ++ template (option_map Package.version lockedPackage))) ;;
  spdx <- getLicense node_modules dependency ;;
  ret (tpipJson ++
       [ {| TpipDependency.name := dependency;
            TpipDependency.version :=
              match lockedPackage with
              | Some p => Package.version p
              | None => FIXME
              end;
            TpipDependency.spdx := spdx;
            TpipDependency.url := FIXME;
            TpipDependency.license := FIXME |} ]).

Definition set_version (d : TpipDependency.t) (v : string) : TpipDependency.t :=
  {| TpipDependency.name := TpipDependency.name d;
     TpipDependency.version := v;
     TpipDependency.spdx := TpipDependency.spdx d;
     TpipDependency.url := TpipDependency.url d;
     TpipDependency.license := TpipDependency.license d |}.

Definition set_spdx (d : TpipDependency.t) (s : string) : TpipDependency.t :=
  {| TpipDependency.name := TpipDependency.name d;
     TpipDependency.version := TpipDependency.version d;
     TpipDependency.spdx := s;
     TpipDependency.url := TpipDependency.url d;
     TpipDependency.license := TpipDependency.license d |}.

(** Lines 131-144 of main: the loop that updates the entries in place.  The
    state is the part of the array already visited, and [result]. *)
Definition main_update (node_modules : NodeModules) (lockJson : PackageLockJson.t)
    (dependency : TpipDependency.t) (s : list TpipDependency.t * nat)
  : M (list TpipDependency.t * nat) :=
  let (visited, result) := s in
  lockedPackage <- getPackage (TpipDependency.name dependency) lockJson ;;
  match lockedPackage with
  | Some lockedPackage =>
      if negb (TpipDependency.version dependency =? Package.version lockedPackage) then
        emit (console_log (" " ++ TpipDependency.name dependency ++ ": "
                           ++ TpipDependency.version dependency ++ " -> "
                           ++ Package.version lockedPackage)) ;;
        let dependency := set_version dependency (Package.version lockedPackage) in
        actLicense <- getLicense node_modules (TpipDependency.name dependency) ;;
        if negb (TpipDependency.spdx dependency =? actLicense) then
          emit (console_warn " License may have changed!") ;;
          emit (console_warn ("   " ++ TpipDependency.spdx dependency
                              ++ " -> " ++ actLicense ++ " ")) ;;
          ret (visited ++ [set_spdx dependency actLicense], 1)
        else ret (visited ++ [dependency], result)
      else ret (visited ++ [dependency], result)
  | None => ret (visited ++ [dependency], result)
  end.

(** [tpipJson] and [lockJson] are the parsed contents of [jsonFile] and of
    package-lock.json. *)
Definition main (depth : nat) (node_modules : NodeModules)
    (lockJson : PackageLockJson.t) (jsonFile : string)
    (tpipJson : list TpipDependency.t) : M nat :=
  let result := 0 in
  emit (console_log "Updating TPIP information ...") ;;
  emit (console_log (" in " ++ jsonFile)) ;;
  result <- forOf main_check tpipJson result ;;
  '(lockedDepencencies, result) <-
    try_catch
      (r <- resolveInternal_root depth lockJson ;; ret (r, result))
      (fun e =>
         emit (console_error (message e)) ;;
         emit (console_error_value e) ;;
         ret ([], 2)) ;;
  let missing :=
    filter (fun d => negb (existsb (fun t => TpipDependency.name t =? d) tpipJson))
           (Object_keys lockedDepencencies) in
  '(tpipJson, result) <-
    (if (0 <? length missing)%nat then
       emit (console_error " Missing dependencies:") ;;
       tpipJson <- forOf (main_push node_modules lockJson) missing tpipJson ;;
       ret (tpipJson, 2)
     else ret (tpipJson, result)) ;;
  '(tpipJson, result) <-
    forOf (main_update node_modules lockJson) tpipJson ([], result) ;;
  (if negb (result =? 0)%nat then
     emit (console_error "New or changed dependencies detected, manual input required.") ;;
     emit (console_warn "Use npm run tpip:update locally and add missing license information")
   else ret tt) ;;
  emit (writeFileSync jsonFile (JSON_stringify tpipJson 4)) ;;
  ret result.

(** [process.exit(main(process.argv[2]))]; an uncaught exception ends the
    process with status 1. *)
Definition exit_status (run : M nat) : nat :=
  match completion run with
  | Normal retval => retval
  | Throw _ => 1
  end.

(** The files a run wrote, in order. *)
Fixpoint written (t : list Effect) : list (string * Json) :=
  match t with
  | [] => []
  | writeFileSync path data :: t' => (path, data) :: written t'
  | _ :: t' => written t'
  end.

(** ** What a run computes

    The values the loops of [main] compute, as functions of the inputs. *)

(** the value [getLicense] returns *)
Definition license_of (node_modules : NodeModules) (name : string) : string :=
  match node_modules name with
  | None => "UNKNOWN"
  | Some json => PackageJson.license json
  end.

(** the variable [lockedDepencencies] after the try statement *)
Definition lockedDependencies (depth : nat) (lockJson : PackageLockJson.t)
  : JsObject string :=
  match completion (resolveInternal_root depth lockJson) with
  | Normal r => r
  | Throw _ => []
  end.

Definition resolution_failed (depth : nat) (lockJson : PackageLockJson.t) : bool :=
  match completion (resolveInternal_root depth lockJson) with
  | Normal _ => false
  | Throw _ => true
  end.

Definition tracked (tpipJson : list TpipDependency.t) (d : string) : bool :=
  existsb (fun t => TpipDependency.name t =? d) tpipJson.

(** the constant [missing] *)
Definition missing (depth : nat) (lockJson : PackageLockJson.t)
    (tpipJson : list TpipDependency.t) : list string :=
  filter (fun d => negb (tracked tpipJson d))
         (Object_keys (lockedDependencies depth lockJson)).

(** the entry pushed for a missing dependency *)
Definition synthesized (node_modules : NodeModules) (lockJson : PackageLockJson.t)
    (dependency : string) : TpipDependency.t :=
  {| TpipDependency.name := dependency;
     TpipDependency.version :=
       match locked dependency lockJson with
       | Some p => Package.version p
       | None => FIXME
       end;
     TpipDependency.spdx := license_of node_modules dependency;
     TpipDependency.url := FIXME;
     TpipDependency.license := FIXME |}.

(** the test of line 133 *)
Definition version_changed (lockJson : PackageLockJson.t) (d : TpipDependency.t)
  : bool :=
  match locked (TpipDependency.name d) lockJson with
  | Some p => negb (TpipDependency.version d =? Package.version p)
  | None => false
  end.

(** the tests of lines 133 and 137 together *)
Definition license_changed (node_modules : NodeModules)
    (lockJson : PackageLockJson.t) (d : TpipDependency.t) : bool :=
  version_changed lockJson d &&
  negb (TpipDependency.spdx d =? license_of node_modules (TpipDependency.name d)).

(** an entry after the loop of lines 131-144 *)
Definition updated (node_modules : NodeModules) (lockJson : PackageLockJson.t)
    (d : TpipDependency.t) : TpipDependency.t :=
  match locked (TpipDependency.name d) lockJson with
  | Some p =>
      if negb (TpipDependency.version d =? Package.version p) then
        let d' := set_version d (Package.version p) in
        let actLicense := license_of node_modules (TpipDependency.name d) in
        if negb (TpipDependency.spdx d' =? actLicense)
        then set_spdx d' actLicense else d'
      else d
  | None => d
  end.

(** the array [tpipJson] when it is written *)
Definition manifest_written (depth : nat) (node_modules : NodeModules)
    (lockJson : PackageLockJson.t) (tpipJson : list TpipDependency.t)
  : list TpipDependency.t :=
  map (updated node_modules lockJson)
      (tpipJson ++ map (synthesized node_modules lockJson)
                       (missing depth lockJson tpipJson)).

(** the value of [result] when [main] returns *)
Definition final_result (depth : nat) (node_modules : NodeModules)
    (lockJson : PackageLockJson.t) (tpipJson : list TpipDependency.t) : nat :=
  let r1 := if existsb hasFixMe tpipJson then 1 else 0 in
  let r2 := if resolution_failed depth lockJson then 2 else r1 in
  let r3 := if (0 <? length (missing depth lockJson tpipJson))%nat then 2 else r2 in
  if existsb (license_changed node_modules lockJson)
             (tpipJson ++ map (synthesized node_modules lockJson)
                              (missing depth lockJson tpipJson))
  then 1 else r3.

(** A name the loop of resolveInternal may record: neither type-only nor
    of the internal namespace. *)
Definition recordable (k : string) : Prop :=
  startsWith k "@types" = false /\ startsWith k "@arm-debug" = false.

(** the warning of line 76 *)
Definition conflict_warning (dependency recorded : string)
    (lockedVersion : option string) : Effect :=
  console_warn (" Conflicting dependency version " ++ dependency ++ ": "
                ++ recorded ++ " vs " ++ template lockedVersion).

(** what [getPackage] prints *)
Definition not_found (name : string) (lockJson : PackageLockJson.t) : list Effect :=
  match locked name lockJson with
  | Some _ => []
  | None => [console_error ("Package " ++ name ++ " not found ...")]
  end.

(** [dependencies ?? {}] *)
Definition dependencies_of (p : Package.t) : JsObject string :=
  match Package.dependencies p with
  | Some d => d
  | None => []
  end.

(** ** Sample inputs *)

(** A lock graph without internal packages. *)
Definition flat_lock : PackageLockJson.t :=
  PackageLockJson.mk
    [ ("", Package.mk "1.1.0"
             (Some [("yargs", "^18.0.0"); ("@types/node", "^20.11.30");
                    ("semver", "^7.6.0")]));
      ("node_modules/yargs", Package.mk "18.0.0" (Some [("cliui", "^9.0.1")]));
      ("node_modules/cliui", Package.mk "9.0.1" None);
      ("node_modules/semver", Package.mk "7.6.3" None);
      ("node_modules/@types/node", Package.mk "20.11.30" None) ].

(** A lock graph whose root depends on the package [constructor]. *)
Definition prototype_lock : PackageLockJson.t :=
  PackageLockJson.mk
    [ ("", Package.mk "1.1.0" (Some [("constructor", "^1.0.0")]));
      ("node_modules/constructor", Package.mk "1.0.0" None) ].

(** A lock graph whose root depends on a package named by a numeral. *)
Definition index_lock : PackageLockJson.t :=
  PackageLockJson.mk
    [ ("", Package.mk "1.1.0" (Some [("7", "^2.0.0"); ("zeta", "^1.0.0")]));
      ("node_modules/7", Package.mk "2.0.0" None);
      ("node_modules/zeta", Package.mk "1.0.0" None) ].

(** A lock graph in which an internal package and the root both require
    [a]: the internal package pins it, the root gives a range. *)
Definition internal_lock : PackageLockJson.t :=
  PackageLockJson.mk
    [ ("", Package.mk "1.1.0"
             (Some [("@arm-debug/x", "^2.0.0"); ("a", "^1.0.0")]));
      ("node_modules/@arm-debug/x",
       Package.mk "2.1.0" (Some [("a", "2.0.0"); ("@types/node", "^20.11.30")]));
      ("node_modules/a", Package.mk "2.0.0" None) ].

(** A manifest and installed packages to go with [flat_lock]: [yargs] is
    tracked at an older version and with another license, [semver] is not
    tracked. *)
Definition sample_manifest : list TpipDependency.t :=
  [ TpipDependency.mk "yargs" "17.7.2" "ISC"
      "https://github.com/yargs/yargs" "LICENSE" ].

Definition sample_node_modules : NodeModules :=
  fun name =>
    if name =? "yargs" then Some (PackageJson.mk "yargs" "18.0.0" "MIT")
    else if name =? "semver" then Some (PackageJson.mk "semver" "7.6.3" "ISC")
    else None.

(** A manifest that tracks both dependencies of [flat_lock], [yargs] at an
    older version and with another license. *)
Definition drifted_manifest : list TpipDependency.t :=
  sample_manifest ++
  [ TpipDependency.mk "semver" "7.6.3" "ISC"
      "https://github.com/npm/node-semver" "LICENSE" ].

(** the line the loop of lines 95-100 prints for an entry *)
Definition needs_completion (d : TpipDependency.t) : Effect :=
  console_error (" " ++ TpipDependency.name d ++ " needs to be completed!").

(** A computation whose last effect is [e], the only file it writes. *)
Definition ends_with {A} (m : M A) (e : Effect) : Prop :=
  exists before, trace m = before ++ [e] /\ written before = [].

(** [Reaches lockJson name target]: a chain of internal-namespace
    dependencies leads from the package [name] to [target], so that
    resolveInternal, called for [name], may come to call itself for
    [target]. *)
Inductive Reaches (lockJson : PackageLockJson.t) : string -> string -> Prop :=
| Reaches_here name : Reaches lockJson name name
| Reaches_dependency name p dependency target :
    locked name lockJson = Some p ->
    In dependency (Object_keys (dependencies_of p)) ->
    startsWith dependency "@arm-debug" = true ->
    Reaches lockJson dependency target ->
    Reaches lockJson name target.

(** A lock graph that lacks the internal package the root depends on. *)
Definition broken_lock : PackageLockJson.t :=
  PackageLockJson.mk
    [ ("", Package.mk "1.1.0"
             (Some [("yargs", "^18.0.0"); ("@arm-debug/x", "^2.0.0")]));
      ("node_modules/yargs", Package.mk "18.0.0" None) ].

(** A lock graph that lacks a package of the public namespace the root
    depends on. *)
Definition partial_lock : PackageLockJson.t :=
  PackageLockJson.mk
    [ ("", Package.mk "1.1.0" (Some [("yargs", "^18.0.0")])) ].

(** [Resolves lockJson name depth]: the package [name] is in the lock
    graph, and so is every package that chains of internal-namespace
    dependencies lead to from it, each chain being shorter than [depth]. *)
Inductive Resolves (lockJson : PackageLockJson.t) : string -> nat -> Prop :=
| Resolves_package name p depth :
    locked name lockJson = Some p ->
    (forall dependency,
       In dependency (Object_keys (dependencies_of p)) ->
       startsWith dependency "@arm-debug" = true ->
       Resolves lockJson dependency depth) ->
    Resolves lockJson name (S depth).

(** A lock graph in which two internal packages depend on each other. *)
Definition cyclic_lock : PackageLockJson.t :=
  PackageLockJson.mk
    [ ("", Package.mk "1.1.0" (Some [("@arm-debug/x", "^2.0.0")]));
      ("node_modules/@arm-debug/x",
       Package.mk "2.1.0" (Some [("yargs", "^18.0.0"); ("@arm-debug/y", "^1.0.0")]));
      ("node_modules/@arm-debug/y",
       Package.mk "1.0.0" (Some [("@arm-debug/x", "^2.0.0")]));
      ("node_modules/yargs", Package.mk "18.0.0" None) ].

(** the line of line 147, printed when [result] is not 0 *)
Definition closing_line : Effect :=
  console_error "New or changed dependencies detected, manual input required.".

(** A computation that does not print [closing_line]. *)
Definition unheard {A} (m : M A) : Prop := ~ In closing_line (trace m).

(** ** The entry point (src/index.ts) *)

Module GreetingOptions.
Record t : Type := mk {
  name : option string;
  excited : option bool
}.
End GreetingOptions.

(** [a || b] on possibly undefined strings: undefined and the empty string
    are falsy *)
Definition js_or (a b : option string) : option string :=
  match a with
  | Some s => if s =? "" then b else a
  | None => b
  end.

Module Index.
(** The parameter and the two properties have defaults, which apply when
    they are undefined. *)
Definition greet (options : option GreetingOptions.t) : string :=
  let options :=
    match options with
    | Some o => o
    | None => GreetingOptions.mk None None
    end in
  let name :=
    match GreetingOptions.name options with Some n => n | None => "World" end in
  let excited :=
    match GreetingOptions.excited options with Some b => b | None => true end in
  let msg := ("Hello, " ++ name)%string in
  if excited then (msg ++ "!")%string else (msg ++ ".")%string.

(** The constant [message], from [process.argv[2]] and the environment
    variables NAME and EXCITED. *)
Definition message (fromArgv fromEnv EXCITED : option string) : string :=
  greet (Some {| GreetingOptions.name := js_or (js_or fromArgv fromEnv) None;
                 GreetingOptions.excited := Some (strict_neq EXCITED (Some "false")) |}).
End Index.

(** A computation returns [a] and writes no file. *)
Definition returns {A} (m : M A) (a : A) : Prop :=
  completion m = Normal a /\ written (trace m) = [].

(** A computation that writes no file, however it completes. *)
Definition quiet {A} (m : M A) : Prop := written (trace m) = [].

(** What is observed of a run: how it completes and what it wrote. *)
Definition outcome {A} (m : M A) : Completion A * list (string * Json) :=
  (completion m, written (trace m)).

(** ** Reasoning about computations *)

Lemma completion_bind A B (m : M A) (k : A -> M B) :
  completion (bind m k) =
  match completion m with
  | Normal a => completion (k a)
  | Throw e => Throw e
  end.
Proof.
  unfold bind. destruct m as [[a|e] t]; simpl; [destruct (k a) |]; reflexivity.
Qed.

Lemma trace_bind A B (m : M A) (k : A -> M B) :
  trace (bind m k) =
  trace m ++ match completion m with
             | Normal a => trace (k a)
             | Throw _ => []
             end.
Proof.
  unfold bind. destruct m as [[a|e] t]; simpl.
  - destruct (k a); reflexivity.
  - unfold trace; simpl. now rewrite app_nil_r.
Qed.

Lemma written_app (t u : list Effect) : written (t ++ u) = written t ++ written u.
Proof.
  induction t as [|e t IH]; simpl; [reflexivity|].
  destruct e; simpl; rewrite IH; reflexivity.
Qed.

Lemma returns_ret A (a : A) : returns (ret a) a.
Proof. split; reflexivity. Qed.

Lemma returns_bind A B (m : M A) (k : A -> M B) a b :
  returns m a -> returns (k a) b -> returns (bind m k) b.
Proof.
  intros [Hc Hw] [Hc' Hw']. split.
  - rewrite completion_bind, Hc. exact Hc'.
  - rewrite trace_bind, Hc, written_app, Hw, Hw'. reflexivity.
Qed.

Lemma returns_log (e : Effect) :
  written [e] = [] -> returns (emit e) tt.
Proof. intros H. split; [reflexivity | exact H]. Qed.

Lemma In_trace_bind_l A B (m : M A) (k : A -> M B) e :
  In e (trace m) -> In e (trace (bind m k)).
Proof. intros H. rewrite trace_bind. apply in_or_app. now left. Qed.

Lemma In_trace_bind_r A B (m : M A) (k : A -> M B) a e :
  completion m = Normal a -> In e (trace (k a)) -> In e (trace (bind m k)).
Proof. intros Hc H. rewrite trace_bind, Hc. apply in_or_app. now right. Qed.

Lemma inherited_node_modules name : inherited ("node_modules/" ++ name) = false.
Proof. reflexivity. Qed.

(** The keys under which [getPackage] looks are not names of
    Object.prototype: there [in] is the test for an own property. *)
Lemma node_module_not_inherited name : inherited (node_module name) = false.
Proof.
  unfold node_module. destruct (String.eqb_spec name "") as [->|_].
  - reflexivity.
  - apply inherited_node_modules.
Qed.

Lemma js_in_node_module V name (o : JsObject V) :
  js_in (node_module name) o = js_own (node_module name) o.
Proof. unfold js_in. now rewrite node_module_not_inherited, orb_false_r. Qed.

Lemma getPackage_eq name lockJson :
  getPackage name lockJson = (Normal (locked name lockJson), not_found name lockJson).
Proof.
  unfold getPackage, locked, not_found, locked. rewrite js_in_node_module.
  unfold js_own.
  destruct (js_get (node_module name) (PackageLockJson.packages lockJson));
    reflexivity.
Qed.

Lemma getPackage_returns name lockJson :
  returns (getPackage name lockJson) (locked name lockJson).
Proof.
  rewrite getPackage_eq. unfold not_found.
  destruct (locked name lockJson); split; reflexivity.
Qed.

Lemma getLicense_returns node_modules name :
  returns (getLicense node_modules name) (license_of node_modules name).
Proof.
  unfold getLicense, license_of. destruct (node_modules name); split; reflexivity.
Qed.

Lemma quiet_bind A B (m : M A) (k : A -> M B) :
  quiet m -> (forall a, quiet (k a)) -> quiet (bind m k).
Proof.
  unfold quiet. intros Hm Hk. rewrite trace_bind, written_app, Hm.
  destruct (completion m); [apply Hk | reflexivity].
Qed.

Lemma quiet_forOf A S (body : A -> S -> M S) xs :
  (forall x s, In x xs -> quiet (body x s)) -> forall s, quiet (forOf body xs s).
Proof.
  induction xs as [|x xs IH]; intros Hb s; simpl.
  - reflexivity.
  - apply quiet_bind.
    + apply Hb. now left.
    + intros s'. apply IH. intros y s'' Hy. apply Hb. now right.
Qed.

Lemma returns_quiet A (m : M A) a : returns m a -> quiet m.
Proof. now intros [_ H]. Qed.

Lemma resolveInternal_body_quiet resolve lockJson entry results :
  (forall n r, quiet (resolve n r)) ->
  quiet (resolveInternal_body resolve lockJson entry results).
Proof.
  intros Hr. unfold resolveInternal_body. destruct entry as [dependency range].
  destruct (startsWith dependency "@arm-debug"); [apply Hr|].
  destruct (negb (startsWith dependency "@types")); [|reflexivity].
  destruct (js_in dependency results); [|reflexivity].
  apply quiet_bind; [apply (returns_quiet (getPackage_returns _ _))|].
  intros p. destruct (js_get dependency results); [destruct (strict_neq _ _)|];
    reflexivity.
Qed.

Lemma resolveInternal_quiet depth lockJson :
  forall name results, quiet (resolveInternal depth lockJson name results).
Proof.
  induction depth as [|depth IH]; intros name results; simpl.
  - reflexivity.
  - apply quiet_bind; [apply (returns_quiet (getPackage_returns _ _))|].
    intros [p|]; [|reflexivity].
    apply quiet_forOf. intros x s _. now apply resolveInternal_body_quiet.
Qed.

Lemma forOf_main_check tpipJson : forall result,
  returns (forOf main_check tpipJson result)
          (if existsb hasFixMe tpipJson then 1 else result).
Proof.
  induction tpipJson as [|d l IH]; intros result; simpl.
  - apply returns_ret.
  - unfold main_check at 1. destruct (hasFixMe d).
    + eapply returns_bind.
      * eapply returns_bind; [now apply returns_log | apply returns_ret].
      * specialize (IH 1). now destruct (existsb hasFixMe l).
    + eapply returns_bind; [apply returns_ret | apply IH].
Qed.

Lemma main_push_returns node_modules lockJson dependency tpipJson :
  returns (main_push node_modules lockJson dependency tpipJson)
          (tpipJson ++ [synthesized node_modules lockJson dependency]).
Proof.
  unfold main_push.
  eapply returns_bind; [apply getPackage_returns|].
  eapply returns_bind; [now apply returns_log|].
  eapply returns_bind; [apply getLicense_returns|].
  apply returns_ret.
Qed.

Lemma forOf_main_push node_modules lockJson dependencies : forall tpipJson,
  returns (forOf (main_push node_modules lockJson) dependencies tpipJson)
          (tpipJson ++ map (synthesized node_modules lockJson) dependencies).
Proof.
  induction dependencies as [|d l IH]; intros tpipJson; simpl.
  - rewrite app_nil_r. apply returns_ret.
  - eapply returns_bind; [apply main_push_returns|].
    specialize (IH (tpipJson ++ [synthesized node_modules lockJson d])).
    now rewrite <- app_assoc in IH.
Qed.

Lemma main_update_returns node_modules lockJson d visited result :
  returns (main_update node_modules lockJson d (visited, result))
          (visited ++ [updated node_modules lockJson d],
           if license_changed node_modules lockJson d then 1 else result).
Proof.
  unfold main_update, updated, license_changed, version_changed.
  eapply returns_bind; [apply getPackage_returns|].
  destruct (locked (TpipDependency.name d) lockJson) as [p|]; [|apply returns_ret].
  destruct (negb (TpipDependency.version d =? Package.version p)); [|apply returns_ret].
  eapply returns_bind; [now apply returns_log|].
  eapply returns_bind; [apply getLicense_returns|].
  simpl.
  destruct (negb (TpipDependency.spdx d =? license_of node_modules (TpipDependency.name d)));
    [|apply returns_ret].
  eapply returns_bind; [now apply returns_log|].
  eapply returns_bind; [now apply returns_log|].
  apply returns_ret.
Qed.

Lemma forOf_main_update node_modules lockJson tpipJson : forall visited result,
  returns (forOf (main_update node_modules lockJson) tpipJson (visited, result))
          (visited ++ map (updated node_modules lockJson) tpipJson,
           if existsb (license_changed node_modules lockJson) tpipJson
           then 1 else result).
Proof.
  induction tpipJson as [|d l IH]; intros visited result; simpl.
  - rewrite app_nil_r. apply returns_ret.
  - eapply returns_bind; [apply main_update_returns|].
    specialize (IH (visited ++ [updated node_modules lockJson d])
                   (if license_changed node_modules lockJson d then 1 else result)).
    rewrite <- app_assoc in IH. simpl in IH.
    destruct (license_changed node_modules lockJson d); simpl; [|exact IH].
    now destruct (existsb (license_changed node_modules lockJson) l).
Qed.

Lemma try_resolve_returns depth lockJson (result : nat) :
  returns
    (try_catch
       (r <- resolveInternal_root depth lockJson ;; ret (r, result))
       (fun e =>
          emit (console_error (message e)) ;;
          emit (console_error_value e) ;;
          ret ([], 2)))
    (lockedDependencies depth lockJson,
     if resolution_failed depth lockJson then 2 else result).
Proof.
  unfold lockedDependencies, resolution_failed.
  pose proof (resolveInternal_quiet depth lockJson "" []) as Hq.
  unfold resolveInternal_root, quiet, trace, completion in *.
  destruct (resolveInternal depth lockJson "" []) as [[r|e] t]; simpl in *.
  - split; simpl; [reflexivity|]. unfold trace; simpl.
    now rewrite app_nil_r.
  - split; simpl; [reflexivity|]. unfold trace; simpl.
    rewrite written_app, Hq. reflexivity.
Qed.

Lemma outcome_bind A B (m : M A) (k : A -> M B) a :
  returns m a -> outcome (bind m k) = outcome (k a).
Proof.
  intros [Hc Hw]. unfold outcome.
  rewrite completion_bind, trace_bind, written_app, Hc, Hw. reflexivity.
Qed.

Lemma missing_phase_returns depth node_modules lockJson tpipJson (result : nat) :
  let missing := missing depth lockJson tpipJson in
  returns
    (if (0 <? length missing)%nat then
       emit (console_error " Missing dependencies:") ;;
       tpipJson <- forOf (main_push node_modules lockJson) missing tpipJson ;;
       ret (tpipJson, 2)
     else ret (tpipJson, result))
    (tpipJson ++ map (synthesized node_modules lockJson) missing,
     if (0 <? length missing)%nat then 2 else result).
Proof.
  intros ms. destruct ms as [|m ms'].
  - cbn [length Nat.ltb Nat.leb map]. rewrite app_nil_r. apply returns_ret.
  - cbn [length Nat.ltb Nat.leb].
    eapply returns_bind; [now apply returns_log|].
    eapply returns_bind; [apply forOf_main_push|]. apply returns_ret.
Qed.

(** [main] returns [final_result] after a single write, of
    [manifest_written] to [jsonFile]. *)
Lemma main_outcome depth node_modules lockJson jsonFile tpipJson :
  outcome (main depth node_modules lockJson jsonFile tpipJson)
  = (Normal (final_result depth node_modules lockJson tpipJson),
     [(jsonFile,
       JSON_stringify (manifest_written depth node_modules lockJson tpipJson) 4)]).
Proof.
  unfold main.
  rewrite (outcome_bind _ (returns_log (console_log _) eq_refl)).
  rewrite (outcome_bind _ (returns_log (console_log _) eq_refl)).
  rewrite (outcome_bind _ (forOf_main_check tpipJson 0)).
  rewrite (outcome_bind _ (try_resolve_returns depth lockJson _)).
  cbv beta iota zeta.
  rewrite (outcome_bind _ (missing_phase_returns depth node_modules lockJson tpipJson _)).
  cbv beta iota.
  rewrite (outcome_bind _ (forOf_main_update node_modules lockJson _ [] _)).
  cbv beta iota.
  fold (final_result depth node_modules lockJson tpipJson).
  set (result := final_result depth node_modules lockJson tpipJson).
  assert (Hmsg : returns
    (if negb (result =? 0)%nat then
       emit (console_error "New or changed dependencies detected, manual input required.") ;;
       emit (console_warn "Use npm run tpip:update locally and add missing license information")
     else ret tt) tt).
  { destruct (negb (result =? 0)%nat); [|apply returns_ret].
    eapply returns_bind; now apply returns_log. }
  rewrite (outcome_bind _ Hmsg).
  reflexivity.
Qed.

Lemma main_completion depth node_modules lockJson jsonFile tpipJson :
  completion (main depth node_modules lockJson jsonFile tpipJson)
  = Normal (final_result depth node_modules lockJson tpipJson).
Proof.
  exact (f_equal fst (main_outcome depth node_modules lockJson jsonFile tpipJson)).
Qed.

Lemma main_exit_status depth node_modules lockJson jsonFile tpipJson :
  exit_status (main depth node_modules lockJson jsonFile tpipJson)
  = final_result depth node_modules lockJson tpipJson.
Proof. unfold exit_status. now rewrite main_completion. Qed.

Lemma main_written depth node_modules lockJson jsonFile tpipJson :
  written (trace (main depth node_modules lockJson jsonFile tpipJson))
  = [(jsonFile,
      JSON_stringify (manifest_written depth node_modules lockJson tpipJson) 4)].
Proof.
  exact (f_equal snd (main_outcome depth node_modules lockJson jsonFile tpipJson)).
Qed.

(** ** Property lists *)

Lemma js_own_keys V k (o : JsObject V) :
  js_own k o = true <-> In k (Object_keys o).
Proof.
  unfold js_own. induction o as [|[k' v] o IH]; simpl.
  - split; [discriminate | tauto].
  - destruct (String.eqb_spec k' k) as [->|Hne].
    + split; auto.
    + rewrite IH. split; [tauto|]. intros [H|H]; [contradiction | exact H].
Qed.

Lemma js_own_false_keys V k (o : JsObject V) :
  js_own k o = false <-> ~ In k (Object_keys o).
Proof.
  rewrite <- js_own_keys. destruct (js_own k o); split; try congruence; tauto.
Qed.

Lemma js_in_false V k (o : JsObject V) :
  js_in k o = false <-> js_own k o = false /\ inherited k = false.
Proof. unfold js_in. apply orb_false_iff. Qed.

Lemma js_in_false_keys V k (o : JsObject V) :
  js_in k o = false -> ~ In k (Object_keys o).
Proof. intros H. apply js_own_false_keys. now apply js_in_false in H. Qed.

Lemma js_get_app V k (o o' : JsObject V) :
  js_get k (o ++ o') = match js_get k o with Some v => Some v | None => js_get k o' end.
Proof.
  induction o as [|[k0 v0] o IH]; simpl; [reflexivity|].
  destruct (k0 =? k); [reflexivity | exact IH].
Qed.

Lemma js_insert_split V n k (v : V) (o : JsObject V) :
  exists l1 l2, o = l1 ++ l2 /\ js_insert n k v o = l1 ++ (k, v) :: l2.
Proof.
  induction o as [|[k0 v0] o IH]; cbn [js_insert].
  - exists [], []. split; reflexivity.
  - destruct (array_index k0) as [n0|]; [destruct (n0 <? n)%N|].
    + destruct IH as (l1 & l2 & -> & ->). exists ((k0, v0) :: l1), l2.
      split; reflexivity.
    + exists [], ((k0, v0) :: o). split; reflexivity.
    + exists [], ((k0, v0) :: o). split; reflexivity.
Qed.

(** A new property is put somewhere among the others, which stay as they
    are. *)
Lemma js_set_new V k (v : V) (o : JsObject V) :
  js_in k o = false ->
  exists l1 l2, o = l1 ++ l2 /\ js_set k v o = l1 ++ (k, v) :: l2.
Proof.
  intros H. apply js_in_false in H. destruct H as [H _].
  unfold js_set. rewrite H. destruct (array_index k) as [n|].
  - apply js_insert_split.
  - exists o, []. split; [now rewrite app_nil_r | reflexivity].
Qed.

Lemma js_set_new_In V k (v : V) (o : JsObject V) :
  js_in k o = false ->
  forall e, In e (js_set k v o) <-> e = (k, v) \/ In e o.
Proof.
  intros H e. destruct (@js_set_new _ k v o H) as (l1 & l2 & -> & ->).
  rewrite !in_app_iff. cbn. intuition congruence.
Qed.

Lemma js_set_new_keys V k (v : V) (o : JsObject V) :
  js_in k o = false ->
  forall k', In k' (Object_keys (js_set k v o)) <-> k' = k \/ In k' (Object_keys o).
Proof.
  intros H k'. destruct (@js_set_new _ k v o H) as (l1 & l2 & -> & ->).
  unfold Object_keys. rewrite !map_app. cbn. rewrite !in_app_iff. cbn.
  intuition congruence.
Qed.

Lemma js_set_new_NoDup V k (v : V) (o : JsObject V) :
  js_in k o = false ->
  NoDup (Object_keys o) -> NoDup (Object_keys (js_set k v o)).
Proof.
  intros H Hnd. pose proof (@js_in_false_keys _ k o H) as Hk.
  destruct (@js_set_new _ k v o H) as (l1 & l2 & -> & ->).
  unfold Object_keys in *. rewrite map_app in *. cbn.
  apply (NoDup_Add (Add_app k (map fst l1) (map fst l2))). now split.
Qed.

Lemma js_get_set_new V k k' (v : V) (o : JsObject V) :
  js_in k o = false ->
  js_get k' (js_set k v o) = if k =? k' then Some v else js_get k' o.
Proof.
  intros H. pose proof (@js_in_false_keys _ k o H) as Hk.
  destruct (@js_set_new _ k v o H) as (l1 & l2 & -> & ->).
  rewrite !js_get_app. cbn.
  destruct (String.eqb_spec k k') as [<-|Hne]; [|reflexivity].
  destruct (js_get k l1) as [x|] eqn:E; [|reflexivity].
  exfalso. apply Hk. apply js_own_keys. unfold js_own.
  now rewrite js_get_app, E.
Qed.

Lemma Object_keys_app V (o o' : JsObject V) :
  Object_keys (o ++ o') = Object_keys o ++ Object_keys o'.
Proof. apply map_app. Qed.

(** ** The resolver *)

Lemma forOf_Normal_cons A S (body : A -> S -> M S) x xs s s' :
  completion (forOf body (x :: xs) s) = Normal s' ->
  exists s1, completion (body x s) = Normal s1 /\
             completion (forOf body xs s1) = Normal s'.
Proof.
  cbn [forOf]. rewrite completion_bind.
  destruct (completion (body x s)) as [s1|e]; [|discriminate].
  intros H. exists s1. split; [reflexivity | exact H].
Qed.

Lemma forOf_Throw A S (body : A -> S -> M S) xs :
  forall s x, In x xs ->
  (forall s0, exists e, completion (body x s0) = Throw e) ->
  exists e, completion (forOf body xs s) = Throw e.
Proof.
  induction xs as [|y xs IH]; intros s x Hin Hx; [destruct Hin|].
  cbn [forOf]. rewrite completion_bind.
  destruct (completion (body y s)) as [s1|e] eqn:E.
  - destruct Hin as [->|Hin].
    + destruct (Hx s) as [e He]. congruence.
    + now apply (IH s1 x).
  - now exists e.
Qed.

(** A relation between the accumulator before and after a call that holds
    of every write the loop can make holds of the whole call. *)
Section ResolverInvariant.
Variable lockJson : PackageLockJson.t.
Variable R : JsObject string -> JsObject string -> Prop.
Hypothesis R_refl : forall r, R r r.
Hypothesis R_trans : forall a b c, R a b -> R b c -> R a c.
Hypothesis R_write : forall r dependency range,
  startsWith dependency "@arm-debug" = false ->
  startsWith dependency "@types" = false ->
  js_in dependency r = false ->
  R r (js_set dependency range r).

Lemma resolveInternal_body_invariant resolve entry results results' :
  (forall n r r', completion (resolve n r) = Normal r' -> R r r') ->
  completion (resolveInternal_body resolve lockJson entry results) = Normal results' ->
  R results results'.
Proof.
  intros Hres. unfold resolveInternal_body. destruct entry as [dependency range].
  destruct (startsWith dependency "@arm-debug") eqn:Ei; [apply Hres|].
  destruct (startsWith dependency "@types") eqn:Et; cbn [negb].
  - intros [= <-]. apply R_refl.
  - destruct (js_in dependency results) eqn:Ein.
    + rewrite completion_bind, (proj1 (getPackage_returns dependency lockJson)).
      destruct (js_get dependency results); [destruct (strict_neq _ _)|];
        intros [= <-]; apply R_refl.
    + intros [= <-]. now apply R_write.
Qed.

Lemma forOf_invariant (body : string * string -> JsObject string -> M (JsObject string)) entries :
  (forall x r r', completion (body x r) = Normal r' -> R r r') ->
  forall r r', completion (forOf body entries r) = Normal r' -> R r r'.
Proof.
  intros Hb. induction entries as [|x xs IH]; intros r r' H.
  - injection H as <-. apply R_refl.
  - apply forOf_Normal_cons in H. destruct H as (r1 & H1 & H2).
    eapply R_trans; [eapply Hb, H1 | apply IH, H2].
Qed.

Lemma resolveInternal_invariant depth : forall name results results',
  completion (resolveInternal depth lockJson name results) = Normal results' ->
  R results results'.
Proof.
  induction depth as [|depth IH]; intros name results results'; cbn [resolveInternal].
  - discriminate.
  - rewrite completion_bind, (proj1 (getPackage_returns name lockJson)).
    destruct (locked name lockJson) as [p|]; [|discriminate].
    apply forOf_invariant. intros x r r'.
    apply resolveInternal_body_invariant. exact IH.
Qed.
End ResolverInvariant.

Lemma bind_ret_l A B (a : A) (k : A -> M B) : bind (ret a) k = k a.
Proof. unfold bind, ret. destruct (k a). reflexivity. Qed.

Lemma resolveInternal_keys lockJson depth name results results' :
  completion (resolveInternal depth lockJson name results) = Normal results' ->
  Forall recordable (Object_keys results) ->
  Forall recordable (Object_keys results').
Proof.
  apply (resolveInternal_invariant lockJson
           (fun r r' => Forall recordable (Object_keys r) ->
                        Forall recordable (Object_keys r'))); clear.
  - auto.
  - auto.
  - intros r d v Hi Ht Hin Hr. rewrite Forall_forall in *.
    intros k Hk. apply (@js_set_new_keys _ d v r Hin) in Hk.
    destruct Hk as [->|Hk]; [now split | now apply Hr].
Qed.

Lemma resolveInternal_get lockJson depth name results results' k v :
  completion (resolveInternal depth lockJson name results) = Normal results' ->
  js_get k results = Some v -> js_get k results' = Some v.
Proof.
  intros H. revert k v.
  apply (resolveInternal_invariant lockJson
           (fun r r' => forall k v, js_get k r = Some v -> js_get k r' = Some v))
    with (4 := H); clear.
  - auto.
  - auto.
  - intros r d range _ _ Hin k v Hk. rewrite js_get_set_new by exact Hin.
    destruct (String.eqb_spec d k) as [->|]; [|exact Hk].
    apply js_in_false in Hin. destruct Hin as [Hin _].
    unfold js_own in Hin. rewrite Hk in Hin. discriminate.
Qed.

Lemma forOf_flat lockJson resolve entries : forall results,
  (forall d, In d (Object_keys entries) -> startsWith d "@arm-debug" = false) ->
  exists results',
    completion (forOf (resolveInternal_body resolve lockJson) entries results)
      = Normal results' /\
    forall k,
      js_get k results'
      = match js_get k results with
        | Some v => Some v
        | None =>
            if startsWith k "@types" || inherited k then None
            else js_get k entries
        end.
Proof.
  induction entries as [|[d v] entries IH]; intros results Hint.
  - exists results. split; [reflexivity|]. intros k.
    destruct (js_get k results); [reflexivity|].
    destruct (startsWith k "@types" || inherited k); reflexivity.
  - assert (Hint' : forall d', In d' (Object_keys entries) ->
                               startsWith d' "@arm-debug" = false)
      by (intros d' Hd'; apply Hint; now right).
    cbn [forOf]. rewrite completion_bind. unfold resolveInternal_body at 1.
    rewrite (Hint d (or_introl eq_refl)).
    destruct (startsWith d "@types") eqn:Et; cbn [negb].
    + cbn [ret completion fst]. destruct (IH results Hint') as (r' & Hr' & Hget).
      exists r'. split; [exact Hr'|]. intros k. rewrite Hget.
      destruct (js_get k results); [reflexivity|]. cbn [js_get].
      destruct (String.eqb_spec d k) as [<-|_]; [|reflexivity].
      now rewrite Et.
    + destruct (js_in d results) eqn:Ein.
      * rewrite completion_bind, (proj1 (getPackage_returns d lockJson)).
        assert (Hc : completion
                       (match js_get d results with
                        | Some recorded =>
                            if strict_neq (Some recorded)
                                 (option_map Package.version (locked d lockJson))
                            then
                              emit (console_warn
                                      (" Conflicting dependency version " ++ d ++ ": "
                                       ++ recorded ++ " vs "
                                       ++ template (option_map Package.version
                                                      (locked d lockJson)))) ;;
                              ret results
                            else ret results
                        | None =>
                            emit (console_warn
                                    (" Conflicting dependency version " ++ d ++ ": "
                                     ++ prototype_text d ++ " vs "
                                     ++ template (option_map Package.version
                                                    (locked d lockJson)))) ;;
                            ret results
                        end) = Normal results)
          by (destruct (js_get d results); [destruct (strict_neq _ _)|]; reflexivity).
        cbv zeta. rewrite Hc.
        destruct (IH results Hint') as (r' & Hr' & Hget).
        exists r'. split; [exact Hr'|]. intros k. rewrite Hget.
        destruct (js_get k results) eqn:Ek; [reflexivity|]. cbn [js_get].
        destruct (String.eqb_spec d k) as [<-|_]; [|reflexivity].
        unfold js_in, js_own in Ein. rewrite Ek, orb_false_l in Ein.
        now rewrite Ein, orb_true_r.
      * cbn [ret completion fst].
        destruct (IH (js_set d v results) Hint') as (r' & Hr' & Hget).
        exists r'. split; [exact Hr'|]. intros k. rewrite Hget.
        rewrite js_get_set_new by exact Ein. cbn [js_get].
        apply js_in_false in Ein. destruct Ein as [Eown Einh].
        destruct (String.eqb_spec d k) as [<-|_]; [|reflexivity].
        unfold js_own in Eown. destruct (js_get d results); [discriminate|].
        now rewrite Et, Einh.
Qed.

(** ** Properties of the resolver *)

(** C9: whenever the resolver succeeds, no key of the accumulator it returns
    starts with '@types' or with '@arm-debug'; internal packages are
    inlined and type-only packages skipped at every depth of the
    recursion. *)
Theorem resolved_keys_recordable depth lockJson results :
  completion (resolveInternal_root depth lockJson) = Normal results ->
  forall k, In k (Object_keys results) ->
    startsWith k "@types" = false /\ startsWith k "@arm-debug" = false.
Proof.
  intros H k Hk.
  apply (resolveInternal_keys lockJson depth "" []) in H; [|constructor].
  rewrite Forall_forall in H. exact (H k Hk).
Qed.

Lemma resolved_keys_recordable_witness :
  completion (resolveInternal_root 2 internal_lock) = Normal [("a", "2.0.0")] /\
  (startsWith "a" "@types" = false /\ startsWith "a" "@arm-debug" = false).
Proof.
  split; [reflexivity|].
  apply (@resolved_keys_recordable 2 internal_lock [("a", "2.0.0")]).
  - reflexivity.
  - simpl. left. reflexivity.
Defined.

(** The claim C3 as stated fails: in [internal_lock] the name [a] is first
    met inside the internal package, pinned to 2.0.0, and met last as a
    direct dependency of the root with the different requirement ^1.0.0.
    No warning is printed (the recorded requirement equals the locked
    version) and the requirement seen first is the one returned. *)
Lemma last_seen_requirement_does_not_win :
  resolveInternal_root 2 internal_lock = (Normal [("a", "2.0.0")], []) /\
  js_get "a" (dependencies_of
                (Package.mk "1.1.0"
                   (Some [("@arm-debug/x", "^2.0.0"); ("a", "^1.0.0")])))
    = Some "^1.0.0" /\
  js_get "a" (lockedDependencies 2 internal_lock) <> Some "^1.0.0".
Proof.
  split; [reflexivity|]. split; [reflexivity|]. vm_compute. discriminate.
Qed.

(** C3, amended: a dependency name already present in the accumulator keeps
    the requirement recorded first, through the whole call and every call
    nested in it, since the only write happens when the key is absent.  A
    visit of such a name, when it is neither internal nor type-only,
    leaves the accumulator as it is and prints the conflict warning
    exactly when the recorded requirement is not the version the lock
    graph gives for that package (a package the lock graph lacks is
    reported as not found, and warned about as well); the requirement
    met at the visit plays no role. *)
Theorem first_seen_requirement_wins lockJson dependency recorded results :
  js_get dependency results = Some recorded ->
  (forall depth name results',
     completion (resolveInternal depth lockJson name results) = Normal results' ->
     js_get dependency results' = Some recorded) /\
  (startsWith dependency "@arm-debug" = false ->
   startsWith dependency "@types" = false ->
   forall resolve range,
     let lockedVersion := option_map Package.version (locked dependency lockJson) in
     resolveInternal_body resolve lockJson (dependency, range) results
     = (Normal results,
        not_found dependency lockJson ++
        if strict_neq (Some recorded) lockedVersion
        then [conflict_warning dependency recorded lockedVersion]
        else [])).
Proof.
  intros Hrec. split.
  - intros depth name results' H. eapply resolveInternal_get; eassumption.
  - intros Hi Ht resolve range. cbv zeta.
    assert (Hin : js_in dependency results = true)
      by (unfold js_in, js_own; now rewrite Hrec).
    unfold resolveInternal_body. rewrite Hi, Ht, Hin, getPackage_eq, Hrec.
    cbn [negb]. unfold bind, emit, ret, conflict_warning, not_found.
    destruct (locked dependency lockJson) as [p|]; cbn [option_map template];
      destruct (strict_neq (Some recorded) _); reflexivity.
Qed.

Lemma first_seen_requirement_wins_witness :
  (completion (resolveInternal 2 internal_lock "" [("a", "2.0.0")])
   = Normal [("a", "2.0.0")] /\
   js_get "a" [("a", "2.0.0")] = Some "2.0.0") /\
  resolveInternal_body (resolveInternal 1 internal_lock) internal_lock
    ("a", "^1.0.0") [("a", "2.0.0")]
  = (Normal [("a", "2.0.0")], []).
Proof.
  split; [split; [reflexivity|] |].
  - apply (proj1 (@first_seen_requirement_wins internal_lock "a" "2.0.0"
                    [("a", "2.0.0")] eq_refl) 2 "").
    reflexivity.
  - apply (proj2 (@first_seen_requirement_wins internal_lock "a" "2.0.0"
                    [("a", "2.0.0")] eq_refl)); reflexivity.
Defined.

(** C7 fails on the code for a dependency named like a property of
    Object.prototype.  The root of [prototype_lock] has no internal
    dependency and declares [constructor]; the loop finds
    ['constructor' in results] true of the empty accumulator, so it
    records nothing and warns of a conflict with the function Object,
    where the claim gives the resolved set [constructor -> ^1.0.0]. *)
Theorem inherited_name_not_resolved :
  locked "" prototype_lock
    = Some (Package.mk "1.1.0" (Some [("constructor", "^1.0.0")])) /\
  startsWith "constructor" "@arm-debug" = false /\
  startsWith "constructor" "@types" = false /\
  resolveInternal_root 1 prototype_lock
  = (Normal [],
     [console_warn (" Conflicting dependency version constructor: "
                    ++ "function Object() { [native code] } vs 1.0.0")]).
Proof. repeat split; reflexivity. Qed.

(** ** Properties of a run *)

Lemma updated_name node_modules lockJson d :
  TpipDependency.name (updated node_modules lockJson d) = TpipDependency.name d.
Proof.
  unfold updated. destruct (locked _ _) as [p|]; [|reflexivity].
  destruct (negb (_ =? _)); [|reflexivity]. cbn.
  destruct (negb (_ =? _)); reflexivity.
Qed.

Lemma updated_unchanged node_modules lockJson d :
  version_changed lockJson d = false -> updated node_modules lockJson d = d.
Proof.
  unfold version_changed, updated.
  destruct (locked _ _) as [p|]; [|reflexivity]. now intros ->.
Qed.

Lemma version_changed_updated node_modules lockJson d :
  version_changed lockJson (updated node_modules lockJson d) = false.
Proof.
  unfold version_changed. rewrite updated_name. unfold updated.
  destruct (locked _ _) as [p|] eqn:E; [|reflexivity].
  destruct (negb (TpipDependency.version d =? Package.version p)) eqn:Ev.
  - cbv zeta.
    destruct (negb (TpipDependency.spdx (set_version d (Package.version p)) =? _));
      cbn; now rewrite String.eqb_refl.
  - exact Ev.
Qed.

Lemma updated_idempotent node_modules lockJson d :
  updated node_modules lockJson (updated node_modules lockJson d)
  = updated node_modules lockJson d.
Proof. apply updated_unchanged, version_changed_updated. Qed.

Lemma version_changed_synthesized node_modules lockJson dependency :
  version_changed lockJson (synthesized node_modules lockJson dependency) = false.
Proof.
  unfold version_changed, synthesized. cbn.
  destruct (locked dependency lockJson); [|reflexivity].
  now rewrite String.eqb_refl.
Qed.

Lemma existsb_false_map A B (f : A -> B) (p : B -> bool) (l : list A) :
  (forall a, p (f a) = false) -> existsb p (map f l) = false.
Proof.
  intros H. induction l as [|a l IH]; cbn; [reflexivity|]. now rewrite H, IH.
Qed.

Lemma manifest_written_eq depth node_modules lockJson tpipJson :
  manifest_written depth node_modules lockJson tpipJson
  = map (updated node_modules lockJson) tpipJson
    ++ map (synthesized node_modules lockJson) (missing depth lockJson tpipJson).
Proof.
  unfold manifest_written. rewrite map_app. f_equal.
  rewrite map_map. apply map_ext. intros d.
  apply updated_unchanged, version_changed_synthesized.
Qed.

Lemma final_result_eq depth node_modules lockJson tpipJson :
  final_result depth node_modules lockJson tpipJson
  = if existsb (license_changed node_modules lockJson) tpipJson then 1
    else if (0 <? length (missing depth lockJson tpipJson))%nat then 2
    else if resolution_failed depth lockJson then 2
    else if existsb hasFixMe tpipJson then 1 else 0.
Proof.
  unfold final_result. rewrite existsb_app.
  rewrite (@existsb_false_map _ _ (synthesized node_modules lockJson)
             (license_changed node_modules lockJson)).
  - now rewrite orb_false_r.
  - intros d. unfold license_changed. now rewrite version_changed_synthesized.
Qed.

Lemma final_result_nonzero depth node_modules lockJson tpipJson :
  existsb (license_changed node_modules lockJson) tpipJson = true \/
  missing depth lockJson tpipJson <> [] \/
  resolution_failed depth lockJson = true \/
  existsb hasFixMe tpipJson = true ->
  final_result depth node_modules lockJson tpipJson <> 0.
Proof.
  rewrite final_result_eq. intros H.
  destruct (existsb (license_changed _ _) _); [discriminate|].
  destruct (missing depth lockJson tpipJson) as [|m ms]; cbn [length Nat.ltb Nat.leb];
    [|discriminate].
  destruct (resolution_failed _ _); [discriminate|].
  destruct (existsb hasFixMe _); [discriminate|].
  destruct H as [H|[H|[H|H]]]; congruence.
Qed.

Lemma tracked_In tpipJson d :
  tracked tpipJson d = true <-> In d (map TpipDependency.name tpipJson).
Proof.
  unfold tracked. rewrite existsb_exists, in_map_iff.
  split; intros (t & H1 & H2).
  - apply String.eqb_eq in H2. eauto.
  - exists t. split; [exact H2 | now apply String.eqb_eq].
Qed.

Lemma missing_In depth lockJson tpipJson d :
  In d (missing depth lockJson tpipJson) <->
  In d (Object_keys (lockedDependencies depth lockJson)) /\ tracked tpipJson d = false.
Proof.
  unfold missing. rewrite filter_In, negb_true_iff. reflexivity.
Qed.

Lemma missing_after_run depth node_modules lockJson tpipJson :
  missing depth lockJson (manifest_written depth node_modules lockJson tpipJson) = [].
Proof.
  destruct (missing depth lockJson (manifest_written depth node_modules lockJson tpipJson))
    as [|d l] eqn:E; [reflexivity|]. exfalso.
  assert (Hd : In d (missing depth lockJson
                       (manifest_written depth node_modules lockJson tpipJson)))
    by (rewrite E; now left).
  apply missing_In in Hd. destruct Hd as [Hk Hn].
  assert (Ht : tracked (manifest_written depth node_modules lockJson tpipJson) d = true).
  { apply tracked_In. rewrite manifest_written_eq, map_app, !map_map.
    apply in_or_app.
    destruct (tracked tpipJson d) eqn:Et.
    - left. apply tracked_In in Et.
      erewrite map_ext; [exact Et|]. intros a. apply updated_name.
    - right. apply in_map_iff. exists d. split; [reflexivity|].
      apply missing_In. now split. }
  congruence.
Qed.

Lemma manifest_written_idempotent depth node_modules lockJson tpipJson :
  manifest_written depth node_modules lockJson
    (manifest_written depth node_modules lockJson tpipJson)
  = manifest_written depth node_modules lockJson tpipJson.
Proof.
  rewrite (manifest_written_eq depth node_modules lockJson
             (manifest_written depth node_modules lockJson tpipJson)).
  rewrite missing_after_run. cbn [map]. rewrite app_nil_r.
  unfold manifest_written. rewrite map_map. apply map_ext.
  intros d. apply updated_idempotent.
Qed.

(** C6: a second run, over the manifest the first run wrote and with the
    same lock graph and installed packages, writes the same JSON again to
    the same file. *)
Theorem main_idempotent depth node_modules lockJson jsonFile tpipJson :
  exists data,
    written (trace (main depth node_modules lockJson jsonFile tpipJson))
      = [(jsonFile, data)] /\
    written (trace (main depth node_modules lockJson jsonFile (json_value data)))
      = [(jsonFile, data)].
Proof.
  eexists. split; [apply main_written|].
  rewrite main_written. cbn [json_value].
  now rewrite manifest_written_idempotent.
Qed.

Lemma ends_with_bind A B (m : M A) (k : A -> M B) a e :
  returns m a -> ends_with (k a) e -> ends_with (bind m k) e.
Proof.
  intros [Hc Hw] (before & Ht & Hb). exists (trace m ++ before). split.
  - rewrite trace_bind, Hc, Ht. apply app_assoc.
  - now rewrite written_app, Hw, Hb.
Qed.

Lemma main_ends_with_write depth node_modules lockJson jsonFile tpipJson :
  ends_with (main depth node_modules lockJson jsonFile tpipJson)
    (writeFileSync jsonFile
       (JSON_stringify (manifest_written depth node_modules lockJson tpipJson) 4)).
Proof.
  unfold main.
  eapply ends_with_bind; [now apply returns_log|].
  eapply ends_with_bind; [now apply returns_log|].
  eapply ends_with_bind; [apply forOf_main_check|].
  eapply ends_with_bind; [apply try_resolve_returns|].
  cbv beta iota zeta.
  eapply ends_with_bind;
    [apply (missing_phase_returns depth node_modules lockJson tpipJson)|].
  cbv beta iota.
  eapply ends_with_bind; [apply forOf_main_update|].
  cbv beta iota.
  eapply ends_with_bind with (a := tt).
  - destruct (negb (_ =? 0)%nat); [|apply returns_ret].
    eapply returns_bind; now apply returns_log.
  - exists []. split; reflexivity.
Qed.

Lemma main_check_returns d result :
  returns (main_check d result) (if hasFixMe d then 1 else result).
Proof.
  unfold main_check. destruct (hasFixMe d); [|apply returns_ret].
  eapply returns_bind; [now apply returns_log | apply returns_ret].
Qed.

Lemma forOf_main_check_reports tpipJson d : forall result,
  In d tpipJson -> hasFixMe d = true ->
  In (needs_completion d) (trace (forOf main_check tpipJson result)).
Proof.
  induction tpipJson as [|x l IH]; intros result Hin Hd; [destruct Hin|].
  cbn [forOf]. destruct Hin as [->|Hin].
  - apply In_trace_bind_l. unfold main_check. rewrite Hd. now left.
  - eapply In_trace_bind_r; [apply main_check_returns|]. now apply IH.
Qed.

Lemma main_reports depth node_modules lockJson jsonFile tpipJson d :
  In d tpipJson -> hasFixMe d = true ->
  In (needs_completion d) (trace (main depth node_modules lockJson jsonFile tpipJson)).
Proof.
  intros Hin Hd. unfold main.
  eapply In_trace_bind_r; [reflexivity|].
  eapply In_trace_bind_r; [reflexivity|].
  apply In_trace_bind_l. now apply forOf_main_check_reports.
Qed.

Lemma existsb_In A (p : A -> bool) (l : list A) a :
  In a l -> p a = true -> existsb p l = true.
Proof. intros. apply existsb_exists. eauto. Qed.

Lemma main_exit_hasFixMe depth node_modules lockJson jsonFile tpipJson d :
  In d tpipJson -> hasFixMe d = true ->
  exit_status (main depth node_modules lockJson jsonFile tpipJson) <> 0.
Proof.
  intros Hin Hd. rewrite main_exit_status. apply final_result_nonzero.
  do 3 right. now apply existsb_In with d.
Qed.

(** C8: every run ends by writing the manifest, as it then stands, to the
    path it read it from, serialized with an indentation of 4; this is the
    only write of the run and it does not depend on the value [main]
    returns, so it also happens in runs that exit non-zero. *)
Theorem manifest_always_written depth node_modules lockJson jsonFile tpipJson :
  exists result before,
    main depth node_modules lockJson jsonFile tpipJson
    = (Normal result,
       before ++
       [writeFileSync jsonFile
          (JSON_stringify
             (map (updated node_modules lockJson) tpipJson ++
              map (synthesized node_modules lockJson) (missing depth lockJson tpipJson))
             4)]) /\
    written before = [].
Proof.
  destruct (main_ends_with_write depth node_modules lockJson jsonFile tpipJson)
    as (before & Ht & Hb).
  pose proof (main_completion depth node_modules lockJson jsonFile tpipJson) as Hc.
  exists (final_result depth node_modules lockJson tpipJson), before.
  split; [|exact Hb].
  rewrite <- manifest_written_eq, <- Ht, <- Hc.
  unfold completion, trace. now destruct (main _ _ _ _ _).
Qed.

(** The claim C4 as stated fails for the name field: an entry whose name
    is the placeholder, and whose other fields are filled in, is not
    reported and the run exits with 0. *)
Lemma placeholder_name_exits_zero :
  let d := TpipDependency.mk FIXME "18.0.0" "MIT" "https://github.com/yargs/yargs"
             "LICENSE" in
  TpipDependency.name d = FIXME /\
  hasFixMe d = false /\
  exit_status (main 1 sample_node_modules
                 (PackageLockJson.mk [("", Package.mk "1.1.0" None)])
                 "docs/third-party-licenses.json" [d]) = 0.
Proof. cbv zeta. split; [|split]; reflexivity. Qed.

(** C4, amended: for every manifest entry whose version, SPDX identifier,
    URL or license field equals the placeholder '<FIXME>', the run reports
    the entry and yields a non-zero exit status. *)
Theorem placeholder_entry_exits_nonzero
    depth node_modules lockJson jsonFile tpipJson d :
  In d tpipJson ->
  TpipDependency.version d = FIXME \/ TpipDependency.spdx d = FIXME \/
  TpipDependency.url d = FIXME \/ TpipDependency.license d = FIXME ->
  let run := main depth node_modules lockJson jsonFile tpipJson in
  In (needs_completion d) (trace run) /\ exit_status run <> 0.
Proof.
  intros Hin Hf.
  assert (Hd : hasFixMe d = true).
  { unfold hasFixMe. rewrite !orb_true_iff, !String.eqb_eq. tauto. }
  split; [now apply main_reports | now apply main_exit_hasFixMe with d].
Qed.

Lemma placeholder_entry_exits_nonzero_witness :
  let d := TpipDependency.mk "semver" "7.6.3" "ISC" FIXME FIXME in
  let run := main 1 sample_node_modules flat_lock "docs/third-party-licenses.json"
               (sample_manifest ++ [d]) in
  In (needs_completion d) (trace run) /\ exit_status run <> 0.
Proof.
  apply (@placeholder_entry_exits_nonzero 1 sample_node_modules flat_lock
           "docs/third-party-licenses.json"
           (sample_manifest ++ [TpipDependency.mk "semver" "7.6.3" "ISC" FIXME FIXME])
           (TpipDependency.mk "semver" "7.6.3" "ISC" FIXME FIXME)).
  - simpl. right. left. reflexivity.
  - simpl. right. right. left. reflexivity.
Defined.

Lemma skipn_length_app A (l l' : list A) : skipn (length l) (l ++ l') = l'.
Proof. induction l as [|a l IH]; [reflexivity | exact IH]. Qed.

(** C10: every entry appended for a missing dependency is written with its
    url and license fields equal to '<FIXME>', so [hasFixMe] holds of it;
    any later run over the written manifest, whatever the lock graph and
    the installed packages then are, reports that entry and exits
    non-zero. *)
Theorem synthesized_entry_needs_completion
    depth node_modules lockJson jsonFile tpipJson data d :
  written (trace (main depth node_modules lockJson jsonFile tpipJson))
    = [(jsonFile, data)] ->
  In d (skipn (length tpipJson) (json_value data)) ->
  (TpipDependency.url d = FIXME /\ TpipDependency.license d = FIXME /\
   hasFixMe d = true) /\
  forall depth' node_modules' lockJson' jsonFile',
    let next := main depth' node_modules' lockJson' jsonFile' (json_value data) in
    In (needs_completion d) (trace next) /\ exit_status next <> 0.
Proof.
  rewrite main_written. intros [= <-]. cbn [json_value].
  rewrite manifest_written_eq.
  replace (length tpipJson)
    with (length (map (updated node_modules lockJson) tpipJson))
    by apply length_map.
  rewrite skipn_length_app. intros Hd.
  assert (Hin : In d (map (updated node_modules lockJson) tpipJson ++
                      map (synthesized node_modules lockJson)
                          (missing depth lockJson tpipJson)))
    by (apply in_or_app; now right).
  apply in_map_iff in Hd. destruct Hd as (k & <- & _).
  assert (Hf : hasFixMe (synthesized node_modules lockJson k) = true).
  { unfold hasFixMe, synthesized. cbn. rewrite !orb_true_iff. auto. }
  split; [split; [reflexivity | split; [reflexivity | exact Hf]] |].
  intros depth' node_modules' lockJson' jsonFile'. cbv zeta. split.
  - now apply main_reports.
  - now apply main_exit_hasFixMe with (synthesized node_modules lockJson k).
Qed.

Lemma synthesized_entry_needs_completion_witness :
  let d := TpipDependency.mk "semver" "7.6.3" "ISC" FIXME FIXME in
  (TpipDependency.url d = FIXME /\ TpipDependency.license d = FIXME /\
   hasFixMe d = true) /\
  forall depth' node_modules' lockJson' jsonFile',
    let next :=
      main depth' node_modules' lockJson' jsonFile'
        [ TpipDependency.mk "yargs" "18.0.0" "MIT"
            "https://github.com/yargs/yargs" "LICENSE"; d ] in
    In (needs_completion d) (trace next) /\ exit_status next <> 0.
Proof.
  apply (@synthesized_entry_needs_completion 1 sample_node_modules flat_lock
           "docs/third-party-licenses.json" sample_manifest
           (JSON_stringify
              [ TpipDependency.mk "yargs" "18.0.0" "MIT"
                  "https://github.com/yargs/yargs" "LICENSE";
                TpipDependency.mk "semver" "7.6.3" "ISC" FIXME FIXME ] 4)).
  - reflexivity.
  - simpl. left. reflexivity.
Defined.

(** The claim C1 as stated fails twice.  An entry whose version is the
    locked one is not compared with the installed license: its SPDX
    identifier stays and the run exits with 0.  And when a dependency is
    missing as well, the code 2 set for it is replaced by the 1 of the
    license change. *)
Lemma license_change_counterexample :
  (let tpipJson :=
     [ TpipDependency.mk "yargs" "18.0.0" "ISC" "https://github.com/yargs/yargs"
         "LICENSE";
       TpipDependency.mk "semver" "7.6.3" "ISC" "https://github.com/npm/node-semver"
         "LICENSE" ] in
   let run := main 1 sample_node_modules flat_lock "docs/third-party-licenses.json"
                tpipJson in
   license_of sample_node_modules "yargs" = "MIT" /\
   written (trace run)
     = [("docs/third-party-licenses.json", JSON_stringify tpipJson 4)] /\
   exit_status run = 0) /\
  (let run := main 1 sample_node_modules flat_lock "docs/third-party-licenses.json"
                sample_manifest in
   missing 1 flat_lock sample_manifest = ["semver"] /\
   license_changed sample_node_modules flat_lock
     (TpipDependency.mk "yargs" "17.7.2" "ISC" "https://github.com/yargs/yargs"
        "LICENSE") = true /\
   exit_status run = 1).
Proof. cbv zeta. repeat split; reflexivity. Qed.

(** C1, amended: when a manifest entry is found in the lock graph with a
    version other than the tracked one, and the license the installed
    package declares differs from the tracked SPDX identifier, the entry
    is written with the locked version and the declared license, and the
    run exits non-zero: with 1 when resolution succeeded and no dependency
    was missing. *)
Theorem license_change_updates_entry
    depth node_modules lockJson jsonFile tpipJson i d p :
  nth_error tpipJson i = Some d ->
  locked (TpipDependency.name d) lockJson = Some p ->
  (TpipDependency.version d =? Package.version p) = false ->
  (TpipDependency.spdx d =? license_of node_modules (TpipDependency.name d)) = false ->
  let run := main depth node_modules lockJson jsonFile tpipJson in
  (exists manifest,
     written (trace run) = [(jsonFile, JSON_stringify manifest 4)] /\
     nth_error manifest i
     = Some {| TpipDependency.name := TpipDependency.name d;
               TpipDependency.version := Package.version p;
               TpipDependency.spdx := license_of node_modules (TpipDependency.name d);
               TpipDependency.url := TpipDependency.url d;
               TpipDependency.license := TpipDependency.license d |}) /\
  exit_status run <> 0 /\
  (resolution_failed depth lockJson = false ->
   missing depth lockJson tpipJson = [] ->
   exit_status run = 1).
Proof.
  intros Hi Hp Hv Hs. cbv zeta.
  assert (Hc : existsb (license_changed node_modules lockJson) tpipJson = true).
  { apply existsb_In with d; [eapply nth_error_In; eassumption|].
    unfold license_changed, version_changed. now rewrite Hp, Hv, Hs. }
  split; [|split].
  - eexists. split; [apply main_written|].
    rewrite manifest_written_eq, nth_error_app1
      by (rewrite length_map; apply nth_error_Some; congruence).
    rewrite (map_nth_error _ _ _ Hi). f_equal.
    unfold updated. rewrite Hp, Hv. cbn. now rewrite Hs.
  - rewrite main_exit_status. apply final_result_nonzero. now left.
  - intros _ _. rewrite main_exit_status, final_result_eq, Hc. reflexivity.
Qed.

Lemma license_change_updates_entry_witness :
  let run := main 1 sample_node_modules flat_lock "docs/third-party-licenses.json"
               drifted_manifest in
  (exists manifest,
     written (trace run)
       = [("docs/third-party-licenses.json", JSON_stringify manifest 4)] /\
     nth_error manifest 0
     = Some (TpipDependency.mk "yargs" "18.0.0" "MIT"
               "https://github.com/yargs/yargs" "LICENSE")) /\
  exit_status run <> 0 /\
  exit_status run = 1.
Proof.
  pose proof (@license_change_updates_entry 1 sample_node_modules flat_lock
                "docs/third-party-licenses.json" drifted_manifest 0
                (TpipDependency.mk "yargs" "17.7.2" "ISC"
                   "https://github.com/yargs/yargs" "LICENSE")
                (Package.mk "18.0.0" (Some [("cliui", "^9.0.1")]))
                eq_refl eq_refl eq_refl eq_refl) as H.
  cbv zeta in *. split; [exact (proj1 H) | split].
  - exact (proj1 (proj2 H)).
  - exact (proj2 (proj2 H) eq_refl eq_refl).
Defined.

(** The claim C2 as stated fails: [semver] is resolved from [flat_lock] and
    not tracked by [sample_manifest]; the entry appended for it carries the
    license the installed package declares in its SPDX field, not the
    placeholder, and the placeholder in its license field; and the run
    exits with 1, the license of [yargs] having changed. *)
Lemma missing_dependency_counterexample :
  let run := main 1 sample_node_modules flat_lock "docs/third-party-licenses.json"
               sample_manifest in
  In "semver" (Object_keys (lockedDependencies 1 flat_lock)) /\
  tracked sample_manifest "semver" = false /\
  license_of sample_node_modules "semver" = "ISC" /\
  written (trace run)
    = [("docs/third-party-licenses.json",
        JSON_stringify
          [ TpipDependency.mk "yargs" "18.0.0" "MIT"
              "https://github.com/yargs/yargs" "LICENSE";
            TpipDependency.mk "semver" "7.6.3" "ISC" "<FIXME>" "<FIXME>" ] 4)] /\
  "ISC" <> FIXME /\
  exit_status run = 1.
Proof.
  cbv zeta. split; [vm_compute; auto|].
  repeat split; try reflexivity. discriminate.
Qed.

(** C2, amended: every dependency name that is in the resolved set and
    not in the tracked manifest is appended as a new manifest entry with
    the placeholder in its url and license fields, the version the lock
    graph gives for the package (the placeholder if it has none), and as
    SPDX identifier the license the installed package declares
    ('UNKNOWN' without a package.json); the run exits non-zero, with 2
    when no tracked entry changes its license. *)
Theorem missing_dependency_appended
    depth node_modules lockJson jsonFile tpipJson results dependency :
  completion (resolveInternal_root depth lockJson) = Normal results ->
  In dependency (Object_keys results) ->
  tracked tpipJson dependency = false ->
  let run := main depth node_modules lockJson jsonFile tpipJson in
  (exists manifest,
     written (trace run) = [(jsonFile, JSON_stringify manifest 4)] /\
     In {| TpipDependency.name := dependency;
           TpipDependency.version :=
             match locked dependency lockJson with
             | Some p => Package.version p
             | None => FIXME
             end;
           TpipDependency.spdx := license_of node_modules dependency;
           TpipDependency.url := FIXME;
           TpipDependency.license := FIXME |}
        (skipn (length tpipJson) manifest)) /\
  exit_status run <> 0 /\
  (existsb (license_changed node_modules lockJson) tpipJson = false ->
   exit_status run = 2).
Proof.
  intros Hres Hk Ht. cbv zeta.
  assert (Hm : In dependency (missing depth lockJson tpipJson)).
  { apply missing_In. unfold lockedDependencies. rewrite Hres. now split. }
  split; [|split].
  - eexists. split; [apply main_written|].
    rewrite manifest_written_eq.
    replace (length tpipJson)
      with (length (map (updated node_modules lockJson) tpipJson))
      by apply length_map.
    rewrite skipn_length_app.
    apply in_map_iff. exists dependency. split; [reflexivity | exact Hm].
  - rewrite main_exit_status. apply final_result_nonzero. right. left.
    intros E. rewrite E in Hm. destruct Hm.
  - intros Hc. rewrite main_exit_status, final_result_eq, Hc.
    destruct (missing depth lockJson tpipJson); [destruct Hm | reflexivity].
Qed.

Lemma missing_dependency_appended_witness :
  let run := main 1 sample_node_modules flat_lock "docs/third-party-licenses.json" [] in
  (exists manifest,
     written (trace run)
       = [("docs/third-party-licenses.json", JSON_stringify manifest 4)] /\
     In (TpipDependency.mk "semver" "7.6.3" "ISC" FIXME FIXME) (skipn 0 manifest)) /\
  exit_status run <> 0 /\
  exit_status run = 2.
Proof.
  pose proof (@missing_dependency_appended 1 sample_node_modules flat_lock
                "docs/third-party-licenses.json" []
                [("yargs", "^18.0.0"); ("semver", "^7.6.0")] "semver"
                eq_refl (or_intror (or_introl eq_refl)) eq_refl) as H.
  cbv zeta in *. split; [exact (proj1 H) | split].
  - exact (proj1 (proj2 H)).
  - exact (proj2 (proj2 H) eq_refl).
Defined.

Lemma try_catch_In A (m : M A) (handler : JsError -> M A) e x :
  completion m = Throw e -> In x (trace (handler e)) ->
  In x (trace (try_catch m handler)).
Proof.
  unfold try_catch, completion, trace. destruct m as [[a|e'] t]; cbn.
  - discriminate.
  - intros [= ->] H. destruct (handler e) as [c t']. cbn in *.
    apply in_or_app. now right.
Qed.

Lemma main_reports_failure depth node_modules lockJson jsonFile tpipJson e :
  completion (resolveInternal_root depth lockJson) = Throw e ->
  In (console_error (message e))
     (trace (main depth node_modules lockJson jsonFile tpipJson)).
Proof.
  intros He. unfold main.
  eapply In_trace_bind_r; [reflexivity|].
  eapply In_trace_bind_r; [reflexivity|].
  eapply In_trace_bind_r; [apply forOf_main_check|].
  apply In_trace_bind_l. apply try_catch_In with e.
  - now rewrite completion_bind, He.
  - now left.
Qed.

Lemma resolveInternal_unresolvable lockJson name target :
  Reaches lockJson name target -> locked target lockJson = None ->
  forall depth results,
    exists e, completion (resolveInternal depth lockJson name results) = Throw e.
Proof.
  intros Hreach Hnone.
  induction Hreach as [name | name p dependency target Hp Hin Hint _ IH];
    intros [|depth] results; cbn [resolveInternal];
    try (eexists; reflexivity);
    rewrite completion_bind, (proj1 (getPackage_returns name lockJson)).
  - rewrite Hnone. eexists. reflexivity.
  - rewrite Hp. fold (dependencies_of p). unfold Object_entries.
    apply in_map_iff in Hin. destruct Hin as ([k range] & Hk & Hin).
    cbn in Hk. subst k.
    apply forOf_Throw with (dependency, range); [exact Hin|].
    intros s0. unfold resolveInternal_body. rewrite Hint. now apply IH.
Qed.

(** The claim C5 as stated fails: the root of [partial_lock] refers to
    [yargs], which the lock graph lacks; resolution succeeds all the same,
    with the requirement of the root recorded, and the run over a manifest
    that tracks [yargs] exits with 0. *)
Lemma absent_package_does_not_fail :
  locked "yargs" partial_lock = None /\
  completion (resolveInternal_root 1 partial_lock) = Normal [("yargs", "^18.0.0")] /\
  exit_status
    (main 1 sample_node_modules partial_lock "docs/third-party-licenses.json"
       [ TpipDependency.mk "yargs" "18.0.0" "MIT"
           "https://github.com/yargs/yargs" "LICENSE" ]) = 0.
Proof. repeat split; reflexivity. Qed.

(** C5, amended: if the root package, or an internal-namespace package
    that a chain of internal-namespace dependencies leads to from the
    root, is absent from the lock graph, the resolver does not skip it:
    resolution throws, whatever the depth of the stack.  [main] catches
    the exception, prints its message, goes on with an empty resolved set
    (so that the manifest is written with the tracked entries only) and
    exits non-zero, with 2 when no tracked entry changes its license. *)
Theorem unresolvable_internal_package_fails lockJson target :
  Reaches lockJson "" target ->
  locked target lockJson = None ->
  forall depth node_modules jsonFile tpipJson,
    let run := main depth node_modules lockJson jsonFile tpipJson in
    (exists e,
       completion (resolveInternal_root depth lockJson) = Throw e /\
       In (console_error (message e)) (trace run)) /\
    written (trace run)
      = [(jsonFile, JSON_stringify (map (updated node_modules lockJson) tpipJson) 4)] /\
    exit_status run <> 0 /\
    (existsb (license_changed node_modules lockJson) tpipJson = false ->
     exit_status run = 2).
Proof.
  intros Hreach Hnone depth node_modules jsonFile tpipJson. cbv zeta.
  destruct (resolveInternal_unresolvable Hreach Hnone depth []) as [e He].
  fold (resolveInternal_root depth lockJson) in He.
  assert (Hf : resolution_failed depth lockJson = true)
    by (unfold resolution_failed; now rewrite He).
  assert (Hm : missing depth lockJson tpipJson = [])
    by (unfold missing, lockedDependencies; now rewrite He).
  split; [|split; [|split]].
  - exists e. split; [exact He | now apply main_reports_failure].
  - rewrite main_written, manifest_written_eq, Hm. cbn [map].
    now rewrite app_nil_r.
  - rewrite main_exit_status. apply final_result_nonzero. tauto.
  - intros Hc. now rewrite main_exit_status, final_result_eq, Hc, Hm, Hf.
Qed.

Lemma unresolvable_internal_package_fails_witness :
  let run := main 2 sample_node_modules broken_lock "docs/third-party-licenses.json"
               [ TpipDependency.mk "yargs" "18.0.0" "MIT"
                   "https://github.com/yargs/yargs" "LICENSE" ] in
  (exists e,
     completion (resolveInternal_root 2 broken_lock) = Throw e /\
     In (console_error (message e)) (trace run)) /\
  exit_status run = 2.
Proof.
  assert (Hreach : Reaches broken_lock "" "@arm-debug/x").
  { eapply Reaches_dependency;
      [reflexivity | simpl; right; left; reflexivity | reflexivity
      | apply Reaches_here]. }
  pose proof (@unresolvable_internal_package_fails broken_lock "@arm-debug/x"
                Hreach eq_refl 2 sample_node_modules
                "docs/third-party-licenses.json"
                [ TpipDependency.mk "yargs" "18.0.0" "MIT"
                    "https://github.com/yargs/yargs" "LICENSE" ]) as H.
  cbv zeta in *. split; [exact (proj1 H)|].
  exact (proj2 (proj2 (proj2 H)) eq_refl).
Defined.

(** ** More on the resolver *)

Lemma forOf_Normal_In A S (R : S -> S -> Prop) (body : A -> S -> M S) xs :
  (forall s, R s s) ->
  (forall a b c, R a b -> R b c -> R a c) ->
  (forall x s s', completion (body x s) = Normal s' -> R s s') ->
  forall s s' x,
    completion (forOf body xs s) = Normal s' -> In x xs ->
    exists s1 s2, R s s1 /\ completion (body x s1) = Normal s2 /\ R s2 s'.
Proof.
  intros Hrefl Htrans Hb.
  induction xs as [|y xs IH]; intros s s' x H Hin; [destruct Hin|].
  apply forOf_Normal_cons in H. destruct H as (s1 & H1 & H2).
  destruct Hin as [->|Hin].
  - exists s, s1. split; [apply Hrefl|]. split; [exact H1|].
    clear IH H1. revert s1 H2. induction xs as [|z xs IHxs]; intros s1 H2.
    + injection H2 as <-. apply Hrefl.
    + apply forOf_Normal_cons in H2. destruct H2 as (s2 & H2 & H3).
      eapply Htrans; [eapply Hb, H2 | apply IHxs, H3].
  - destruct (IH s1 s' x H2 Hin) as (a & b & Ha & Hab & Hb').
    exists a, b. split; [|split; assumption].
    eapply Htrans; [eapply Hb, H1 | exact Ha].
Qed.

Lemma forOf_Normal A S (body : A -> S -> M S) xs :
  (forall x s, In x xs -> exists s', completion (body x s) = Normal s') ->
  forall s, exists s', completion (forOf body xs s) = Normal s'.
Proof.
  induction xs as [|x xs IH]; intros Hb s; cbn [forOf].
  - now exists s.
  - destruct (Hb x s (or_introl eq_refl)) as [s1 H1].
    rewrite completion_bind, H1. apply IH. intros y s0 Hy. apply Hb. now right.
Qed.

Lemma resolveInternal_keys_incl lockJson depth name results results' k :
  completion (resolveInternal depth lockJson name results) = Normal results' ->
  In k (Object_keys results) -> In k (Object_keys results').
Proof.
  apply (resolveInternal_invariant lockJson
           (fun r r' => In k (Object_keys r) -> In k (Object_keys r'))); clear.
  - auto.
  - auto.
  - intros r d v _ _ Hin Hk. apply (@js_set_new_keys _ d v r Hin). now right.
Qed.

Lemma filter_all A (f : A -> bool) (l : list A) :
  (forall x, In x l -> f x = true) -> filter f l = l.
Proof.
  induction l as [|x l IH]; intros H; cbn; [reflexivity|].
  rewrite (H x (or_introl eq_refl)), IH; [reflexivity|].
  intros y Hy. apply H. now right.
Qed.

Lemma filter_narrow A (f g : A -> bool) (l : list A) :
  (forall x, In x l -> f x = true -> g x = true) ->
  filter f (filter g l) = filter f l.
Proof.
  induction l as [|x l IH]; intros H; cbn; [reflexivity|].
  assert (IH' : filter f (filter g l) = filter f l)
    by (apply IH; intros y Hy; apply H; now right).
  destruct (g x) eqn:Eg; cbn.
  - now rewrite IH'.
  - destruct (f x) eqn:Ef; [|exact IH'].
    rewrite (H x (or_introl eq_refl) Ef) in Eg. discriminate.
Qed.

Lemma filter_own_self V (o : JsObject V) :
  filter (fun e => js_own (fst e) o) o = o.
Proof.
  apply filter_all. intros [k v] H. apply js_own_keys.
  apply in_map_iff. now exists (k, v).
Qed.

(** X1: the resolver never removes or changes an entry the accumulator
    holds, and keeps those entries in their order: the entries of the
    accumulator it returns whose keys were present are the accumulator it
    was given.  Every other entry it returns has a key that the operator
    [in] did not find in the accumulator. *)
Theorem resolveInternal_keeps_entries lockJson depth name results results' :
  completion (resolveInternal depth lockJson name results) = Normal results' ->
  filter (fun e => js_own (fst e) results) results' = results /\
  forall k v, In (k, v) results' -> In (k, v) results \/ js_in k results = false.
Proof.
  apply (resolveInternal_invariant lockJson
           (fun r r' =>
              filter (fun e => js_own (fst e) r) r' = r /\
              forall k v, In (k, v) r' -> In (k, v) r \/ js_in k r = false)); clear.
  - intros r. split; [apply filter_own_self | now left].
  - intros a b c [Hab Hab'] [Hbc Hbc'].
    assert (Hown : forall k, js_own k a = true -> js_own k b = true).
    { intros k Hk. apply js_own_keys in Hk. apply js_own_keys.
      apply in_map_iff in Hk. destruct Hk as (e & <- & He).
      apply in_map. rewrite <- Hab in He. now apply filter_In in He. }
    split.
    + transitivity (filter (fun e => js_own (fst e) a)
                           (filter (fun e => js_own (fst e) b) c)).
      * symmetry. apply filter_narrow. intros [k v] _ H. now apply Hown.
      * now rewrite Hbc.
    + intros k v Hk. destruct (Hbc' k v Hk) as [Hb|Hb]; [now apply Hab'|].
      right. apply js_in_false in Hb. destruct Hb as [Hb Hi].
      apply js_in_false. split; [|exact Hi].
      destruct (js_own k a) eqn:E; [|reflexivity].
      rewrite (Hown k E) in Hb. discriminate.
  - intros r d v _ _ Hin. split.
    + destruct (@js_set_new _ d v r Hin) as (l1 & l2 & E & ->).
      rewrite filter_app. cbn [filter fst].
      apply js_in_false in Hin. destruct Hin as [Hin _]. rewrite Hin.
      rewrite <- filter_app, <- E. apply filter_own_self.
    + intros k w Hk. apply (@js_set_new_In _ d v r Hin) in Hk.
      destruct Hk as [[= -> ->]|Hk]; [now right | now left].
Qed.

Lemma resolveInternal_keeps_entries_witness :
  filter (fun e => js_own (fst e) [("b", "1.0.0")])
         [("7", "^2.0.0"); ("b", "1.0.0"); ("zeta", "^1.0.0")]
  = [("b", "1.0.0")] /\
  forall k v,
    In (k, v) [("7", "^2.0.0"); ("b", "1.0.0"); ("zeta", "^1.0.0")] ->
    In (k, v) [("b", "1.0.0")] \/ js_in k [("b", "1.0.0")] = false.
Proof.
  apply (@resolveInternal_keeps_entries index_lock 1 "" [("b", "1.0.0")]
           [("7", "^2.0.0"); ("b", "1.0.0"); ("zeta", "^1.0.0")]).
  reflexivity.
Defined.

(** X2: the resolver keeps the names of the accumulator distinct; the
    names it returns for the root are pairwise distinct. *)
Theorem resolveInternal_NoDup lockJson depth name results results' :
  completion (resolveInternal depth lockJson name results) = Normal results' ->
  NoDup (Object_keys results) -> NoDup (Object_keys results').
Proof.
  apply (resolveInternal_invariant lockJson
           (fun r r' => NoDup (Object_keys r) -> NoDup (Object_keys r'))); clear.
  - auto.
  - auto.
  - intros r d v _ _ Hin Hnd. now apply js_set_new_NoDup.
Qed.

Lemma resolveInternal_NoDup_witness :
  NoDup (Object_keys [("yargs", "^17.0.0"); ("a", "2.0.0")]).
Proof.
  apply (@resolveInternal_NoDup internal_lock 2 "" [("yargs", "^17.0.0")]
           [("yargs", "^17.0.0"); ("a", "2.0.0")]).
  - reflexivity.
  - simpl. repeat constructor; simpl; intuition discriminate.
Defined.

Lemma Reaches_trans lockJson a b c :
  Reaches lockJson a b -> Reaches lockJson b c -> Reaches lockJson a c.
Proof.
  induction 1 as [|name p dependency target Hp Hin Hint _ IH]; intros H; [exact H|].
  eapply Reaches_dependency; eauto.
Qed.

Lemma In_entry_key V k (v : V) (o : JsObject V) :
  In (k, v) o -> In k (Object_keys o).
Proof. intros H. apply in_map_iff. now exists (k, v). Qed.

Lemma resolveInternal_loop_declared lockJson resolve name p entries :
  locked name lockJson = Some p ->
  (forall d r r', completion (resolve d r) = Normal r' ->
     forall k v, In (k, v) r' ->
       In (k, v) r \/
       exists n q, Reaches lockJson d n /\ locked n lockJson = Some q /\
                   In (k, v) (dependencies_of q)) ->
  incl entries (dependencies_of p) ->
  forall results results',
    completion (forOf (resolveInternal_body resolve lockJson) entries results)
      = Normal results' ->
    forall k v, In (k, v) results' ->
      In (k, v) results \/
      exists n q, Reaches lockJson name n /\ locked n lockJson = Some q /\
                  In (k, v) (dependencies_of q).
Proof.
  intros Hp IH.
  induction entries as [|[d range] entries IHe]; intros Hsub results results' H k v Hk.
  - injection H as <-. now left.
  - apply forOf_Normal_cons in H. destruct H as (r1 & H1 & H2).
    assert (Hd : In (d, range) (dependencies_of p)) by (apply Hsub; now left).
    destruct (IHe (fun e He => Hsub e (or_intror He)) r1 results' H2 k v Hk)
      as [Hin|Hex]; [|now right].
    unfold resolveInternal_body in H1.
    destruct (startsWith d "@arm-debug") eqn:Ei.
    + destruct (IH d results r1 H1 k v Hin) as [Hin'|(n & q & Hr & Hq & Hkv)];
        [now left|].
      right. exists n, q. split; [|now split].
      eapply Reaches_dependency; eauto. now apply In_entry_key with range.
    + destruct (startsWith d "@types"); cbn [negb] in H1.
      * injection H1 as <-. now left.
      * destruct (js_in d results) eqn:Ein.
        -- rewrite completion_bind, (proj1 (getPackage_returns d lockJson)) in H1.
           destruct (js_get d results); [destruct (strict_neq _ _)|];
             injection H1 as <-; now left.
        -- injection H1 as <-. apply (@js_set_new_In _ d range results Ein) in Hin.
           destruct Hin as [[= -> ->]|Hin]; [|now left].
           right. exists name, p. split; [apply Reaches_here | now split].
Qed.

Lemma resolveInternal_declared lockJson depth : forall name results results',
  completion (resolveInternal depth lockJson name results) = Normal results' ->
  forall k v, In (k, v) results' ->
    In (k, v) results \/
    exists n p, Reaches lockJson name n /\ locked n lockJson = Some p /\
                In (k, v) (dependencies_of p).
Proof.
  induction depth as [|depth IH]; intros name results results';
    cbn [resolveInternal]; [discriminate|].
  rewrite completion_bind, (proj1 (getPackage_returns name lockJson)).
  destruct (locked name lockJson) as [p|] eqn:Hp; [|discriminate].
  fold (dependencies_of p). unfold Object_entries.
  apply resolveInternal_loop_declared with p; [exact Hp | exact IH | apply incl_refl].
Qed.

(** X3: every entry the resolver returns is declared, with that version
    range, in the dependency map of the root package or of an internal
    package that internal-namespace dependencies lead to from the root. *)
Theorem resolved_entries_declared lockJson depth results k v :
  completion (resolveInternal_root depth lockJson) = Normal results ->
  In (k, v) results ->
  exists n p,
    Reaches lockJson "" n /\ locked n lockJson = Some p /\
    In (k, v) (dependencies_of p).
Proof.
  intros H Hk.
  unfold resolveInternal_root in H.
  eapply resolveInternal_declared in H; [|exact Hk].
  destruct H as [[]|Hex]. exact Hex.
Qed.

Lemma resolved_entries_declared_witness :
  exists n p,
    Reaches internal_lock "" n /\ locked n internal_lock = Some p /\
    In ("a", "2.0.0") (dependencies_of p).
Proof.
  apply (@resolved_entries_declared internal_lock 2 [("a", "2.0.0")] "a" "2.0.0").
  - reflexivity.
  - simpl. left. reflexivity.
Defined.

Lemma resolveInternal_body_records resolve lockJson d range results results' :
  startsWith d "@arm-debug" = false ->
  startsWith d "@types" = false ->
  inherited d = false ->
  completion (resolveInternal_body resolve lockJson (d, range) results)
    = Normal results' ->
  In d (Object_keys results').
Proof.
  intros Hi Ht Hp. unfold resolveInternal_body. rewrite Hi, Ht. cbn [negb].
  destruct (js_in d results) eqn:Ein.
  - rewrite completion_bind, (proj1 (getPackage_returns d lockJson)).
    unfold js_in in Ein. rewrite Hp, orb_false_r in Ein.
    apply js_own_keys in Ein.
    destruct (js_get d results); [destruct (strict_neq _ _)|];
      intros [= <-]; exact Ein.
  - intros [= <-]. apply (@js_set_new_keys _ d range results Ein). now left.
Qed.

Lemma resolveInternal_body_keys_incl lockJson depth entry results results' k :
  completion (resolveInternal_body (resolveInternal depth lockJson) lockJson
                entry results) = Normal results' ->
  In k (Object_keys results) -> In k (Object_keys results').
Proof.
  intros H.
  refine (@resolveInternal_body_invariant lockJson
            (fun r r' => In k (Object_keys r) -> In k (Object_keys r'))
            _ _ (resolveInternal depth lockJson) entry results results' _ H);
    clear.
  - auto.
  - intros r d v _ _ Hin Hk. apply (@js_set_new_keys _ d v r Hin). now right.
  - intros n r r' H. now apply resolveInternal_keys_incl with (1 := H).
Qed.

Lemma resolveInternal_visits lockJson name n :
  Reaches lockJson name n ->
  forall depth results results' p k,
    completion (resolveInternal depth lockJson name results) = Normal results' ->
    locked n lockJson = Some p ->
    In k (Object_keys (dependencies_of p)) ->
    startsWith k "@arm-debug" = false ->
    startsWith k "@types" = false ->
    inherited k = false ->
    In k (Object_keys results').
Proof.
  induction 1 as [name | name p0 dependency target Hp0 Hin Hint _ IH];
    intros [|depth] results results' p k; cbn [resolveInternal];
    try discriminate;
    rewrite completion_bind, (proj1 (getPackage_returns name lockJson)).
  - intros H Hp Hk Hi Ht Hproto. rewrite Hp in H.
    fold (dependencies_of p) in H. unfold Object_entries in H.
    apply in_map_iff in Hk. destruct Hk as ([k' range] & Hk' & Hk).
    cbn in Hk'. subst k'.
    destruct (@forOf_Normal_In _ _
                (fun r r' : JsObject string =>
                   In k (Object_keys r) -> In k (Object_keys r'))
                (resolveInternal_body (resolveInternal depth lockJson) lockJson)
                (dependencies_of p)
                (fun _ H => H) (fun _ _ _ H1 H2 H => H2 (H1 H))
                (fun x s s' H => @resolveInternal_body_keys_incl
                                   lockJson depth x s s' k H)
                results results' (k, range) H Hk)
      as (r1 & r2 & _ & Hbody & Hmono).
    apply Hmono. eapply resolveInternal_body_records; eassumption.
  - intros H Hp Hk Hi Ht Hproto. rewrite Hp0 in H.
    fold (dependencies_of p0) in H. unfold Object_entries in H.
    apply in_map_iff in Hin. destruct Hin as ([d range] & Hd & Hin).
    cbn in Hd. subst d.
    destruct (@forOf_Normal_In _ _
                (fun r r' : JsObject string =>
                   In k (Object_keys r) -> In k (Object_keys r'))
                (resolveInternal_body (resolveInternal depth lockJson) lockJson)
                (dependencies_of p0)
                (fun _ H => H) (fun _ _ _ H1 H2 H => H2 (H1 H))
                (fun x s s' H => @resolveInternal_body_keys_incl
                                   lockJson depth x s s' k H)
                results results' (dependency, range) H Hin)
      as (r1 & r2 & _ & Hbody & Hmono).
    apply Hmono. unfold resolveInternal_body in Hbody. rewrite Hint in Hbody.
    eapply IH; eassumption.
Qed.

(** X4: when resolution succeeds, the resolved set holds the name of every
    dependency that the root package or an internal package reached from
    it declares, provided the name is neither internal nor type-only nor
    the name of a property of Object.prototype. *)
Theorem declared_dependencies_resolved lockJson depth results n p k :
  completion (resolveInternal_root depth lockJson) = Normal results ->
  Reaches lockJson "" n ->
  locked n lockJson = Some p ->
  In k (Object_keys (dependencies_of p)) ->
  startsWith k "@arm-debug" = false ->
  startsWith k "@types" = false ->
  inherited k = false ->
  In k (Object_keys results).
Proof.
  intros H Hr Hp Hk Hi Ht Hproto.
  eapply resolveInternal_visits with (1 := Hr) (2 := H); eassumption.
Qed.

Lemma declared_dependencies_resolved_witness :
  In "a" (Object_keys [("a", "2.0.0")]).
Proof.
  apply (@declared_dependencies_resolved internal_lock 2 [("a", "2.0.0")]
           "@arm-debug/x"
           (Package.mk "2.1.0" (Some [("a", "2.0.0"); ("@types/node", "^20.11.30")]))
           "a").
  - reflexivity.
  - eapply Reaches_dependency;
      [reflexivity | simpl; left; reflexivity | reflexivity | apply Reaches_here].
  - reflexivity.
  - simpl. left. reflexivity.
  - reflexivity.
  - reflexivity.
  - reflexivity.
Defined.

Lemma resolveInternal_body_Normal resolve lockJson d range results :
  (startsWith d "@arm-debug" = true ->
   exists results', completion (resolve d results) = Normal results') ->
  exists results',
    completion (resolveInternal_body resolve lockJson (d, range) results)
      = Normal results'.
Proof.
  intros Hres. unfold resolveInternal_body.
  destruct (startsWith d "@arm-debug"); [now apply Hres|].
  destruct (negb (startsWith d "@types")); [|eexists; reflexivity].
  destruct (js_in d results); [|eexists; reflexivity].
  rewrite completion_bind, (proj1 (getPackage_returns d lockJson)).
  destruct (js_get d results); [destruct (strict_neq _ _)|]; eexists; reflexivity.
Qed.

(** X5: resolution succeeds, whatever the accumulator, exactly when the
    package it starts from and every internal package reached from it are
    in the lock graph and the chains of internal dependencies fit the call
    stack. *)
Theorem resolution_succeeds_iff lockJson depth : forall name results,
  (exists results',
     completion (resolveInternal depth lockJson name results) = Normal results')
  <-> Resolves lockJson name depth.
Proof.
  intros name results. split.
  - revert name results.
    induction depth as [|depth IH]; intros name results [results' H];
      cbn [resolveInternal] in H; [discriminate|].
    rewrite completion_bind, (proj1 (getPackage_returns name lockJson)) in H.
    destruct (locked name lockJson) as [p|] eqn:Hp; [|discriminate].
    fold (dependencies_of p) in H. unfold Object_entries in H.
    apply Resolves_package with p; [exact Hp|].
    intros dependency Hin Hint.
    apply in_map_iff in Hin. destruct Hin as ([d range] & Hd & Hin).
    cbn in Hd. subst d.
    destruct (@forOf_Normal_In _ _ (fun _ _ : JsObject string => True)
                (resolveInternal_body (resolveInternal depth lockJson) lockJson)
                (dependencies_of p)
                (fun _ => I) (fun _ _ _ _ _ => I) (fun _ _ _ _ => I)
                results results' (dependency, range) H Hin)
      as (r1 & r2 & _ & Hbody & _).
    unfold resolveInternal_body in Hbody. rewrite Hint in Hbody.
    apply (IH dependency r1). now exists r2.
  - intros HR. revert results.
    induction HR as [name p depth Hp _ IH]; intros results.
    cbn [resolveInternal].
    rewrite completion_bind, (proj1 (getPackage_returns name lockJson)), Hp.
    fold (dependencies_of p). unfold Object_entries.
    apply forOf_Normal. intros [d range] s Hin.
    apply resolveInternal_body_Normal. intros Hint.
    apply IH; [|exact Hint]. now apply In_entry_key with range.
Qed.

Lemma forOf_Throw_inv A S (body : A -> S -> M S) xs : forall s e,
  completion (forOf body xs s) = Throw e ->
  exists x s1, In x xs /\ completion (body x s1) = Throw e.
Proof.
  induction xs as [|x xs IH]; intros s e; cbn [forOf]; [discriminate|].
  rewrite completion_bind.
  destruct (completion (body x s)) as [s1|e'] eqn:E.
  - intros H. destruct (IH s1 e H) as (y & s2 & Hy & H2).
    exists y, s2. split; [now right | exact H2].
  - intros [= ->]. exists x, s. split; [now left | exact E].
Qed.

Lemma resolveInternal_Throw_cases lockJson depth : forall name results e,
  completion (resolveInternal depth lockJson name results) = Throw e ->
  e = RangeError "Maximum call stack size exceeded" \/
  exists n,
    Reaches lockJson name n /\ locked n lockJson = None /\
    e = Error ("Cannot resolve transitive dependencies of " ++ n).
Proof.
  induction depth as [|depth IH]; intros name results e; cbn [resolveInternal].
  - intros [= <-]. now left.
  - rewrite completion_bind, (proj1 (getPackage_returns name lockJson)).
    destruct (locked name lockJson) as [p|] eqn:Hp.
    + fold (dependencies_of p). unfold Object_entries. intros H.
      apply forOf_Throw_inv in H. destruct H as ([d range] & s1 & Hin & H).
      unfold resolveInternal_body in H.
      destruct (startsWith d "@arm-debug") eqn:Hint.
      * destruct (IH d s1 e H) as [->|(n & Hr & Hn & ->)]; [now left|].
        right. exists n. split; [|now split].
        eapply Reaches_dependency; eauto. now apply In_entry_key with range.
      * destruct (negb (startsWith d "@types")); [|discriminate].
        destruct (js_in d s1); [|discriminate].
        rewrite completion_bind, (proj1 (getPackage_returns d lockJson)) in H.
        destruct (js_get d s1); [destruct (strict_neq _ _)|]; discriminate.
    + intros [= <-]. right. exists name.
      split; [apply Reaches_here | now split].
Qed.

(** X6: resolution fails in two ways only: with the error 'Cannot resolve
    transitive dependencies of n', n being the package it started from or
    an internal package reached from it that the lock graph lacks, or
    with the RangeError of an exhausted call stack. *)
Theorem resolution_errors lockJson depth name results e :
  completion (resolveInternal depth lockJson name results) = Throw e ->
  e = RangeError "Maximum call stack size exceeded" \/
  exists n,
    Reaches lockJson name n /\ locked n lockJson = None /\
    e = Error ("Cannot resolve transitive dependencies of " ++ n).
Proof. apply resolveInternal_Throw_cases. Qed.

Lemma resolution_errors_witness :
  Error "Cannot resolve transitive dependencies of @arm-debug/x"
    = RangeError "Maximum call stack size exceeded" \/
  exists n,
    Reaches broken_lock "" n /\ locked n broken_lock = None /\
    Error "Cannot resolve transitive dependencies of @arm-debug/x"
      = Error ("Cannot resolve transitive dependencies of " ++ n).
Proof.
  apply (@resolution_errors broken_lock 2 "" [("yargs", "^18.0.0")]).
  reflexivity.
Defined.

Lemma resolveInternal_cycle lockJson n p d :
  locked n lockJson = Some p ->
  In d (Object_keys (dependencies_of p)) ->
  startsWith d "@arm-debug" = true ->
  Reaches lockJson d n ->
  forall depth m results,
    Reaches lockJson m n ->
    exists e, completion (resolveInternal depth lockJson m results) = Throw e.
Proof.
  intros Hp Hd Hint Hback.
  induction depth as [|depth IH]; intros m results Hm; cbn [resolveInternal].
  - eexists. reflexivity.
  - rewrite completion_bind, (proj1 (getPackage_returns m lockJson)).
    destruct Hm as [m | m q dependency target Hq Hin Hint' Hrest].
    + rewrite Hp. fold (dependencies_of p). unfold Object_entries.
      apply in_map_iff in Hd. destruct Hd as ([k range] & Hk & Hd).
      cbn in Hk. subst k.
      apply forOf_Throw with (d, range); [exact Hd|].
      intros s0. unfold resolveInternal_body. rewrite Hint. now apply IH.
    + rewrite Hq. fold (dependencies_of q). unfold Object_entries.
      apply in_map_iff in Hin. destruct Hin as ([k range] & Hk & Hin).
      cbn in Hk. subst k.
      apply forOf_Throw with (dependency, range); [exact Hin|].
      intros s0. unfold resolveInternal_body. rewrite Hint'. now apply IH.
Qed.

(** X7: there is no cycle detection: when an internal package reached from
    the root depends, through internal packages, on itself, resolution
    fails at every depth of the call stack; the run then appends nothing,
    writes the tracked entries and exits non-zero. *)
Theorem internal_cycle_fails lockJson n p d :
  Reaches lockJson "" n ->
  locked n lockJson = Some p ->
  In d (Object_keys (dependencies_of p)) ->
  startsWith d "@arm-debug" = true ->
  Reaches lockJson d n ->
  forall depth node_modules jsonFile tpipJson,
    let run := main depth node_modules lockJson jsonFile tpipJson in
    (exists e, completion (resolveInternal_root depth lockJson) = Throw e) /\
    written (trace run)
      = [(jsonFile, JSON_stringify (map (updated node_modules lockJson) tpipJson) 4)] /\
    exit_status run <> 0.
Proof.
  intros Hn Hp Hd Hint Hback depth node_modules jsonFile tpipJson. cbv zeta.
  destruct (resolveInternal_cycle Hp Hd Hint Hback depth [] Hn) as [e He].
  fold (resolveInternal_root depth lockJson) in He.
  split; [now exists e|]. split.
  - rewrite main_written, manifest_written_eq.
    unfold missing, lockedDependencies. rewrite He. cbn [Object_keys map filter].
    now rewrite app_nil_r.
  - rewrite main_exit_status. apply final_result_nonzero. right. right. left.
    unfold resolution_failed. now rewrite He.
Qed.

Lemma internal_cycle_fails_witness :
  let run := main 50 sample_node_modules cyclic_lock "docs/third-party-licenses.json"
               sample_manifest in
  (exists e, completion (resolveInternal_root 50 cyclic_lock) = Throw e) /\
  written (trace run)
    = [("docs/third-party-licenses.json",
        JSON_stringify (map (updated sample_node_modules cyclic_lock) sample_manifest) 4)] /\
  exit_status run <> 0.
Proof.
  apply (@internal_cycle_fails cyclic_lock "@arm-debug/x"
           (Package.mk "2.1.0"
              (Some [("yargs", "^18.0.0"); ("@arm-debug/y", "^1.0.0")]))
           "@arm-debug/y").
  - eapply Reaches_dependency;
      [reflexivity | simpl; left; reflexivity | reflexivity | apply Reaches_here].
  - reflexivity.
  - simpl. right. left. reflexivity.
  - reflexivity.
  - eapply Reaches_dependency;
      [reflexivity | simpl; left; reflexivity | reflexivity | apply Reaches_here].
Defined.

Lemma bind_ext_Normal A B (m : M A) (k1 k2 : A -> M B) :
  (forall a, completion m = Normal a -> k1 a = k2 a) -> bind m k1 = bind m k2.
Proof.
  unfold bind, completion. destruct m as [[a|e] t]; cbn; intros H.
  - now rewrite (H a eq_refl).
  - reflexivity.
Qed.

Lemma forOf_ext_Normal A S (b1 b2 : A -> S -> M S) xs : forall s s',
  (forall x s0 s1, completion (b1 x s0) = Normal s1 -> b2 x s0 = b1 x s0) ->
  completion (forOf b1 xs s) = Normal s' ->
  forOf b2 xs s = forOf b1 xs s.
Proof.
  induction xs as [|x xs IH]; intros s s' Hb H; [reflexivity|].
  apply forOf_Normal_cons in H. destruct H as (s1 & H1 & H2).
  cbn [forOf]. rewrite (Hb x s s1 H1).
  apply bind_ext_Normal. intros a Ha.
  assert (a = s1) by congruence. subst a. now apply IH with s'.
Qed.

Lemma resolveInternal_deeper lockJson depth : forall name results results',
  completion (resolveInternal depth lockJson name results) = Normal results' ->
  resolveInternal (S depth) lockJson name results
  = resolveInternal depth lockJson name results.
Proof.
  induction depth as [|depth IH]; intros name results results' H; [discriminate|].
  cbn [resolveInternal] in H.
  rewrite completion_bind, (proj1 (getPackage_returns name lockJson)) in H.
  change (resolveInternal (S (S depth)) lockJson name results)
    with (nodePackage <- getPackage name lockJson ;;
          match nodePackage with
          | None => throw (Error ("Cannot resolve transitive dependencies of " ++ name))
          | Some nodePackage =>
              forOf (resolveInternal_body (resolveInternal (S depth) lockJson) lockJson)
                    (Object_entries (dependencies_of nodePackage)) results
          end).
  change (resolveInternal (S depth) lockJson name results)
    with (nodePackage <- getPackage name lockJson ;;
          match nodePackage with
          | None => throw (Error ("Cannot resolve transitive dependencies of " ++ name))
          | Some nodePackage =>
              forOf (resolveInternal_body (resolveInternal depth lockJson) lockJson)
                    (Object_entries (dependencies_of nodePackage)) results
          end).
  apply bind_ext_Normal. intros a Ha.
  rewrite (proj1 (getPackage_returns name lockJson)) in Ha. injection Ha as <-.
  destruct (locked name lockJson) as [p|]; [|reflexivity].
  apply forOf_ext_Normal with results'; [|exact H].
  intros [d range] s0 s1 Hb. unfold resolveInternal_body in *.
  destruct (startsWith d "@arm-debug"); [|reflexivity].
  now apply IH with s1.
Qed.

(** X8: a deeper call stack changes nothing once resolution succeeds: the
    resolver returns the same accumulator and prints the same lines, and
    the whole run is the same. *)
Theorem deeper_stack_same_run lockJson depth results :
  completion (resolveInternal_root depth lockJson) = Normal results ->
  forall more node_modules jsonFile tpipJson,
    resolveInternal_root (depth + more) lockJson = resolveInternal_root depth lockJson /\
    main (depth + more) node_modules lockJson jsonFile tpipJson
    = main depth node_modules lockJson jsonFile tpipJson.
Proof.
  intros H more node_modules jsonFile tpipJson.
  assert (E : resolveInternal_root (depth + more) lockJson
              = resolveInternal_root depth lockJson).
  { induction more as [|more IHm].
    - now rewrite Nat.add_0_r.
    - rewrite Nat.add_succ_r. rewrite <- IHm. unfold resolveInternal_root.
      apply resolveInternal_deeper with results.
      fold (resolveInternal_root (depth + more) lockJson). now rewrite IHm. }
  split; [exact E|]. unfold main. now rewrite E.
Qed.

Lemma deeper_stack_same_run_witness :
  resolveInternal_root (2 + 40) internal_lock = resolveInternal_root 2 internal_lock /\
  main (2 + 40) sample_node_modules internal_lock "docs/third-party-licenses.json" []
  = main 2 sample_node_modules internal_lock "docs/third-party-licenses.json" [].
Proof.
  apply (@deeper_stack_same_run internal_lock 2 [("a", "2.0.0")]).
  reflexivity.
Defined.

(** ** More on a run *)

Lemma existsb_false A (p : A -> bool) (l : list A) :
  existsb p l = false <-> forall a, In a l -> p a = false.
Proof.
  induction l as [|x l IH]; cbn.
  - split; [intros _ a [] | reflexivity].
  - rewrite orb_false_iff, IH. split.
    + intros [Hx Hl] a [<-|Ha]; auto.
    + intros H. split; [apply H; now left | intros a Ha; apply H; now right].
Qed.

Lemma missing_nil depth lockJson tpipJson :
  missing depth lockJson tpipJson = [] <->
  forall k, In k (Object_keys (lockedDependencies depth lockJson)) ->
            tracked tpipJson k = true.
Proof.
  split.
  - intros E k Hk. destruct (tracked tpipJson k) eqn:Et; [reflexivity|].
    assert (Hm : In k (missing depth lockJson tpipJson)) by (apply missing_In; now split).
    rewrite E in Hm. destruct Hm.
  - intros H. destruct (missing depth lockJson tpipJson) as [|k l] eqn:E; [reflexivity|].
    assert (Hm : In k (missing depth lockJson tpipJson)) by (rewrite E; now left).
    apply missing_In in Hm. destruct Hm as [Hk Ht].
    rewrite (H k Hk) in Ht. discriminate.
Qed.

Lemma version_updated node_modules lockJson d p :
  locked (TpipDependency.name d) lockJson = Some p ->
  TpipDependency.version (updated node_modules lockJson d) = Package.version p.
Proof.
  intros Hp. pose proof (version_changed_updated node_modules lockJson d) as H.
  unfold version_changed in H. rewrite updated_name, Hp in H.
  apply negb_false_iff, String.eqb_eq in H. exact H.
Qed.

(** X9: in the manifest a run writes, every entry whose name the lock
    graph knows carries the version the lock graph gives for it. *)
Theorem written_versions_locked
    depth node_modules lockJson jsonFile tpipJson manifest d p :
  written (trace (main depth node_modules lockJson jsonFile tpipJson))
    = [(jsonFile, JSON_stringify manifest 4)] ->
  In d manifest ->
  locked (TpipDependency.name d) lockJson = Some p ->
  TpipDependency.version d = Package.version p.
Proof.
  rewrite main_written. intros [= <-]. rewrite manifest_written_eq.
  intros Hd Hp. apply in_app_or in Hd. destruct Hd as [Hd|Hd];
    apply in_map_iff in Hd; destruct Hd as (x & <- & _).
  - rewrite updated_name in Hp. now apply version_updated.
  - cbn in *. now rewrite Hp.
Qed.

Lemma written_versions_locked_witness :
  TpipDependency.version
    (TpipDependency.mk "yargs" "18.0.0" "MIT" "https://github.com/yargs/yargs" "LICENSE")
  = Package.version (Package.mk "18.0.0" (Some [("cliui", "^9.0.1")])).
Proof.
  apply (@written_versions_locked 1 sample_node_modules flat_lock
           "docs/third-party-licenses.json" sample_manifest
           [ TpipDependency.mk "yargs" "18.0.0" "MIT"
               "https://github.com/yargs/yargs" "LICENSE";
             TpipDependency.mk "semver" "7.6.3" "ISC" FIXME FIXME ]).
  - reflexivity.
  - simpl. left. reflexivity.
  - reflexivity.
Defined.

(** X10: the exit status is 0, 1 or 2.  It is 0 exactly when no tracked
    entry holds the placeholder in one of the four fields [hasFixMe]
    reads, resolution succeeds, every resolved name is tracked and no
    tracked entry changes its license.  It is 2 exactly when no tracked
    entry changes its license and resolution failed or some resolved name
    is not tracked. *)
Theorem exit_status_table depth node_modules lockJson jsonFile tpipJson :
  let run := main depth node_modules lockJson jsonFile tpipJson in
  exit_status run <= 2 /\
  (exit_status run = 0 <->
   (forall d, In d tpipJson -> hasFixMe d = false) /\
   (exists results,
      completion (resolveInternal_root depth lockJson) = Normal results /\
      forall k, In k (Object_keys results) -> tracked tpipJson k = true) /\
   (forall d, In d tpipJson -> license_changed node_modules lockJson d = false)) /\
  (exit_status run = 2 <->
   (forall d, In d tpipJson -> license_changed node_modules lockJson d = false) /\
   ((exists e, completion (resolveInternal_root depth lockJson) = Throw e) \/
    exists k, In k (Object_keys (lockedDependencies depth lockJson)) /\
              tracked tpipJson k = false)).
Proof.
  cbv zeta. rewrite main_exit_status, final_result_eq.
  rewrite <- !existsb_false.
  assert (HS : (exists results,
                  completion (resolveInternal_root depth lockJson) = Normal results /\
                  forall k, In k (Object_keys results) -> tracked tpipJson k = true)
               <-> resolution_failed depth lockJson = false /\
                   missing depth lockJson tpipJson = []).
  { rewrite missing_nil. unfold resolution_failed, lockedDependencies.
    destruct (completion (resolveInternal_root depth lockJson)) as [r|e].
    - split; [intros (r' & [= <-] & H); now split | intros [_ H]; now exists r].
    - split; [intros (r' & [=] & _) | intros [[=] _]]. }
  assert (HR : (exists e, completion (resolveInternal_root depth lockJson) = Throw e)
               <-> resolution_failed depth lockJson = true).
  { unfold resolution_failed.
    destruct (completion (resolveInternal_root depth lockJson)) as [r|e].
    - split; [intros [e [=]] | discriminate].
    - split; [reflexivity | intros _; now exists e]. }
  assert (HM : (exists k, In k (Object_keys (lockedDependencies depth lockJson)) /\
                          tracked tpipJson k = false)
               <-> missing depth lockJson tpipJson <> []).
  { split.
    - intros (k & Hk & Ht) E.
      assert (Hm : In k (missing depth lockJson tpipJson)) by (apply missing_In; now split).
      rewrite E in Hm. destruct Hm.
    - destruct (missing depth lockJson tpipJson) as [|k l] eqn:E; [congruence|].
      intros _. exists k. apply missing_In. rewrite E. now left. }
  rewrite HS, HR, HM. clear HS HR HM.
  destruct (existsb (license_changed node_modules lockJson) tpipJson);
    destruct (missing depth lockJson tpipJson) as [|m ms];
    cbn [length Nat.ltb Nat.leb];
    destruct (resolution_failed depth lockJson);
    destruct (existsb hasFixMe tpipJson);
    repeat split; try lia; intros;
    repeat match goal with
           | H : _ /\ _ |- _ => destruct H
           | H : _ \/ _ |- _ => destruct H
           end;
    try congruence; try discriminate; auto;
    try (right; discriminate); try (left; reflexivity).
Qed.

(** X11: a run keeps every tracked entry at its place in the manifest, with
    its name, url and license fields as they were; an entry whose version
    is the locked one, or whose name the lock graph does not know, is
    written exactly as it was read. *)
Theorem tracked_entries_kept
    depth node_modules lockJson jsonFile tpipJson manifest i d :
  written (trace (main depth node_modules lockJson jsonFile tpipJson))
    = [(jsonFile, JSON_stringify manifest 4)] ->
  nth_error tpipJson i = Some d ->
  exists d',
    nth_error manifest i = Some d' /\
    TpipDependency.name d' = TpipDependency.name d /\
    TpipDependency.url d' = TpipDependency.url d /\
    TpipDependency.license d' = TpipDependency.license d /\
    ((forall p, locked (TpipDependency.name d) lockJson = Some p ->
                TpipDependency.version d = Package.version p) ->
     d' = d).
Proof.
  rewrite main_written. intros [= <-] Hi. rewrite manifest_written_eq.
  exists (updated node_modules lockJson d). split; [|split; [|split; [|split]]].
  - rewrite nth_error_app1 by (rewrite length_map; apply nth_error_Some; congruence).
    now apply map_nth_error.
  - apply updated_name.
  - unfold updated. destruct (locked _ _); [|reflexivity].
    destruct (negb (_ =? _)); [|reflexivity]. cbv zeta.
    destruct (negb (_ =? _)); reflexivity.
  - unfold updated. destruct (locked _ _); [|reflexivity].
    destruct (negb (_ =? _)); [|reflexivity]. cbv zeta.
    destruct (negb (_ =? _)); reflexivity.
  - intros H. apply updated_unchanged. unfold version_changed.
    destruct (locked (TpipDependency.name d) lockJson) as [p|]; [|reflexivity].
    rewrite (H p eq_refl). now rewrite String.eqb_refl.
Qed.

Lemma tracked_entries_kept_witness :
  exists d',
    nth_error
      [ TpipDependency.mk "yargs" "18.0.0" "MIT" "https://github.com/yargs/yargs"
          "LICENSE";
        TpipDependency.mk "semver" "7.6.3" "ISC" FIXME FIXME ] 0 = Some d' /\
    TpipDependency.name d' = "yargs" /\
    TpipDependency.url d' = "https://github.com/yargs/yargs" /\
    TpipDependency.license d' = "LICENSE".
Proof.
  destruct (@tracked_entries_kept 1 sample_node_modules flat_lock
              "docs/third-party-licenses.json" sample_manifest
              [ TpipDependency.mk "yargs" "18.0.0" "MIT"
                  "https://github.com/yargs/yargs" "LICENSE";
                TpipDependency.mk "semver" "7.6.3" "ISC" FIXME FIXME ]
              0
              (TpipDependency.mk "yargs" "17.7.2" "ISC"
                 "https://github.com/yargs/yargs" "LICENSE")
              eq_refl eq_refl) as (d' & H1 & H2 & H3 & H4 & _).
  exists d'. repeat split; assumption.
Defined.

Lemma lockedDependencies_NoDup depth lockJson :
  NoDup (Object_keys (lockedDependencies depth lockJson)).
Proof.
  unfold lockedDependencies, resolveInternal_root.
  destruct (completion (resolveInternal depth lockJson "" [])) as [r|e] eqn:E;
    [|constructor].
  assert (H : NoDup (Object_keys (@nil (string * string))) -> NoDup (Object_keys r)).
  { revert E.
    apply (resolveInternal_invariant lockJson
             (fun r r' => NoDup (Object_keys r) -> NoDup (Object_keys r'))); clear.
    - auto.
    - auto.
    - intros r0 d v _ _ Hin Hnd. now apply js_set_new_NoDup. }
  apply H. constructor.
Qed.

(** X12: the entries a run appends are, in the order of the resolved set,
    one for each resolved name that no tracked entry has: their names are
    pairwise distinct, and none is appended when resolution fails. *)
Theorem appended_entries_distinct
    depth node_modules lockJson jsonFile tpipJson manifest :
  written (trace (main depth node_modules lockJson jsonFile tpipJson))
    = [(jsonFile, JSON_stringify manifest 4)] ->
  let appended := map TpipDependency.name (skipn (length tpipJson) manifest) in
  appended
    = filter (fun k => negb (existsb (fun t => TpipDependency.name t =? k) tpipJson))
             (Object_keys (lockedDependencies depth lockJson)) /\
  NoDup appended /\
  (resolution_failed depth lockJson = true -> appended = []).
Proof.
  rewrite main_written. intros [= <-]. cbv zeta. rewrite manifest_written_eq.
  replace (length tpipJson)
    with (length (map (updated node_modules lockJson) tpipJson))
    by apply length_map.
  rewrite skipn_length_app, map_map. cbn [synthesized TpipDependency.name].
  rewrite map_id. fold (tracked tpipJson). fold (missing depth lockJson tpipJson).
  split; [reflexivity|]. split.
  - apply NoDup_filter, lockedDependencies_NoDup.
  - unfold missing, lockedDependencies, resolution_failed.
    destruct (completion (resolveInternal_root depth lockJson)); [discriminate|].
    reflexivity.
Qed.

Lemma appended_entries_distinct_witness :
  let appended :=
    map TpipDependency.name
      (skipn (length sample_manifest)
         [ TpipDependency.mk "yargs" "18.0.0" "MIT" "https://github.com/yargs/yargs"
             "LICENSE";
           TpipDependency.mk "semver" "7.6.3" "ISC" FIXME FIXME ]) in
  appended = ["semver"] /\ NoDup appended.
Proof.
  destruct (@appended_entries_distinct 1 sample_node_modules flat_lock
              "docs/third-party-licenses.json" sample_manifest
              [ TpipDependency.mk "yargs" "18.0.0" "MIT"
                  "https://github.com/yargs/yargs" "LICENSE";
                TpipDependency.mk "semver" "7.6.3" "ISC" FIXME FIXME ]
              eq_refl) as (H1 & H2 & _).
  split; [exact H1 | exact H2].
Defined.

Lemma trace_bind_Normal A B (m : M A) (k : A -> M B) a :
  completion m = Normal a -> trace (bind m k) = trace m ++ trace (k a).
Proof. intros H. now rewrite trace_bind, H. Qed.

Lemma forOf_main_check_trace tpipJson : forall result,
  trace (forOf main_check tpipJson result)
  = map needs_completion (filter hasFixMe tpipJson).
Proof.
  induction tpipJson as [|d l IH]; intros result; [reflexivity|].
  cbn [forOf filter].
  rewrite (@trace_bind_Normal _ _ _ _ _ (proj1 (main_check_returns d result))), IH.
  unfold main_check. destruct (hasFixMe d); reflexivity.
Qed.

(** X13: a run first prints its two header lines and then one line for
    each tracked entry that holds the placeholder, in the order of the
    manifest and for no other entry, before it prints anything else. *)
Theorem placeholders_reported_first depth node_modules lockJson jsonFile tpipJson :
  exists rest,
    trace (main depth node_modules lockJson jsonFile tpipJson)
    = [console_log "Updating TPIP information ..."; console_log (" in " ++ jsonFile)]
      ++ map (fun d => console_error (" " ++ TpipDependency.name d
                                        ++ " needs to be completed!"))
             (filter hasFixMe tpipJson)
      ++ rest.
Proof.
  unfold main.
  rewrite (@trace_bind_Normal _ _ (emit (console_log "Updating TPIP information ...")) _ tt eq_refl).
  rewrite (@trace_bind_Normal _ _ (emit (console_log (" in " ++ jsonFile))) _ tt eq_refl).
  rewrite (@trace_bind_Normal _ _ _ _ _ (proj1 (forOf_main_check tpipJson 0))).
  rewrite forOf_main_check_trace.
  eexists. reflexivity.
Qed.

Lemma license_changed_manifest_written depth node_modules lockJson tpipJson :
  existsb (license_changed node_modules lockJson)
          (manifest_written depth node_modules lockJson tpipJson) = false.
Proof.
  apply existsb_false. intros d Hd. rewrite manifest_written_eq in Hd.
  unfold license_changed. apply in_app_or in Hd.
  destruct Hd as [Hd|Hd]; apply in_map_iff in Hd; destruct Hd as (x & <- & _).
  - now rewrite version_changed_updated.
  - now rewrite version_changed_synthesized.
Qed.

(** X14: a second run over the manifest a run wrote, with the same lock
    graph and installed packages, finds nothing missing and no license to
    change: it exits with 2 exactly when resolution fails, and with 0
    exactly when resolution succeeds and no written entry holds the
    placeholder. *)
Theorem second_run_exit_status depth node_modules lockJson jsonFile tpipJson data :
  written (trace (main depth node_modules lockJson jsonFile tpipJson))
    = [(jsonFile, data)] ->
  let next := main depth node_modules lockJson jsonFile (json_value data) in
  (exit_status next = 2 <->
   exists e, completion (resolveInternal_root depth lockJson) = Throw e) /\
  (exit_status next = 0 <->
   (exists results, completion (resolveInternal_root depth lockJson) = Normal results) /\
   forall d, In d (json_value data) -> hasFixMe d = false) /\
  exit_status next <= 2.
Proof.
  rewrite main_written. intros [= <-]. cbn [json_value]. cbv zeta.
  rewrite main_exit_status, final_result_eq.
  rewrite license_changed_manifest_written, missing_after_run.
  cbn [length Nat.ltb Nat.leb]. rewrite <- existsb_false.
  unfold resolution_failed.
  destruct (completion (resolveInternal_root depth lockJson)) as [r|e];
    destruct (existsb hasFixMe _);
    repeat split; try lia; intros;
    repeat match goal with
           | H : _ /\ _ |- _ => destruct H
           | H : exists _, _ |- _ => destruct H
           end;
    try congruence; try discriminate; eauto.
Qed.

Lemma second_run_exit_status_witness :
  let next := main 1 sample_node_modules flat_lock "docs/third-party-licenses.json"
                [ TpipDependency.mk "yargs" "18.0.0" "MIT"
                    "https://github.com/yargs/yargs" "LICENSE";
                  TpipDependency.mk "semver" "7.6.3" "ISC" FIXME FIXME ] in
  exit_status next <= 2.
Proof.
  exact (proj2 (proj2
    (@second_run_exit_status 1 sample_node_modules flat_lock
       "docs/third-party-licenses.json" sample_manifest
       (JSON_stringify
          [ TpipDependency.mk "yargs" "18.0.0" "MIT"
              "https://github.com/yargs/yargs" "LICENSE";
            TpipDependency.mk "semver" "7.6.3" "ISC" FIXME FIXME ] 4)
       eq_refl))).
Defined.

Lemma unheard_ret A (a : A) : unheard (ret a).
Proof. intros []. Qed.

Lemma unheard_emit (e : Effect) : e <> closing_line -> unheard (emit e).
Proof. intros H [E|[]]. now apply H. Qed.

Lemma unheard_bind A B (m : M A) (k : A -> M B) :
  unheard m -> (forall a, completion m = Normal a -> unheard (k a)) ->
  unheard (bind m k).
Proof.
  unfold unheard. intros Hm Hk. rewrite trace_bind. intros H.
  apply in_app_or in H. destruct H as [H|H]; [now apply Hm|].
  destruct (completion m) as [a|e]; [now apply (Hk a) | destruct H].
Qed.

Lemma unheard_forOf A S (body : A -> S -> M S) xs :
  (forall x s, unheard (body x s)) -> forall s, unheard (forOf body xs s).
Proof.
  intros Hb. induction xs as [|x xs IH]; intros s; cbn [forOf].
  - apply unheard_ret.
  - apply unheard_bind; [apply Hb | intros a _; apply IH].
Qed.

Lemma unheard_try_catch A (m : M A) (handler : JsError -> M A) :
  unheard m -> (forall e, completion m = Throw e -> unheard (handler e)) ->
  unheard (try_catch m handler).
Proof.
  unfold unheard, try_catch, completion, trace.
  destruct m as [[a|e] t]; cbn; intros Hm Hh; [exact Hm|].
  specialize (Hh e eq_refl). destruct (handler e) as [c t']. cbn in *.
  intros H. apply in_app_or in H. tauto.
Qed.

Lemma getPackage_unheard name lockJson : unheard (getPackage name lockJson).
Proof.
  unfold getPackage. destruct (js_in _ _); [apply unheard_ret|].
  apply unheard_bind; [|intros; apply unheard_ret].
  apply unheard_emit. cbn. discriminate.
Qed.

Lemma getLicense_unheard node_modules name : unheard (getLicense node_modules name).
Proof.
  unfold getLicense. destruct (node_modules name); [apply unheard_ret|].
  apply unheard_bind; [|intros; apply unheard_ret].
  apply unheard_emit. discriminate.
Qed.

Lemma resolveInternal_unheard depth lockJson :
  forall name results, unheard (resolveInternal depth lockJson name results).
Proof.
  induction depth as [|depth IH]; intros name results; cbn [resolveInternal].
  - intros [].
  - apply unheard_bind; [apply getPackage_unheard|].
    intros [p|] _; [|intros []].
    apply unheard_forOf. intros [d range] s. unfold resolveInternal_body.
    destruct (startsWith d "@arm-debug"); [apply IH|].
    destruct (negb (startsWith d "@types")); [|apply unheard_ret].
    destruct (js_in d s); [|apply unheard_ret].
    apply unheard_bind; [apply getPackage_unheard|].
    intros q _.
    destruct (js_get d s); [destruct (strict_neq _ _); [|apply unheard_ret]|];
      (apply unheard_bind; [|intros; apply unheard_ret]);
      apply unheard_emit; discriminate.
Qed.

Lemma main_check_unheard d result : unheard (main_check d result).
Proof.
  unfold main_check. destruct (hasFixMe d); [|apply unheard_ret].
  apply unheard_bind; [|intros; apply unheard_ret].
  apply unheard_emit. cbn. discriminate.
Qed.

Lemma main_push_unheard node_modules lockJson dependency tpipJson :
  unheard (main_push node_modules lockJson dependency tpipJson).
Proof.
  unfold main_push.
  apply unheard_bind; [apply getPackage_unheard|]. intros p _.
  apply unheard_bind; [apply unheard_emit; cbn; discriminate|]. intros _ _.
  apply unheard_bind; [apply getLicense_unheard|]. intros; apply unheard_ret.
Qed.

Lemma main_update_unheard node_modules lockJson d s :
  unheard (main_update node_modules lockJson d s).
Proof.
  unfold main_update. destruct s as [visited result].
  apply unheard_bind; [apply getPackage_unheard|]. intros [p|] _; [|apply unheard_ret].
  destruct (negb (_ =? _)); [|apply unheard_ret].
  apply unheard_bind; [apply unheard_emit; discriminate|]. intros _ _.
  apply unheard_bind; [apply getLicense_unheard|]. intros actLicense _.
  destruct (negb (_ =? _)); [|apply unheard_ret].
  apply unheard_bind; [apply unheard_emit; discriminate|]. intros _ _.
  apply unheard_bind; [apply unheard_emit; discriminate|]. intros; apply unheard_ret.
Qed.

Lemma try_resolve_unheard depth lockJson (result : nat) :
  unheard
    (try_catch
       (r <- resolveInternal_root depth lockJson ;; ret (r, result))
       (fun e =>
          emit (console_error (message e)) ;;
          emit (console_error_value e) ;;
          ret ([], 2))).
Proof.
  apply unheard_try_catch.
  - apply unheard_bind; [apply resolveInternal_unheard | intros; apply unheard_ret].
  - intros e He. rewrite completion_bind in He.
    destruct (completion (resolveInternal_root depth lockJson)) as [r|e'] eqn:E;
      [discriminate|]. injection He as ->.
    apply resolveInternal_Throw_cases in E.
    apply unheard_bind.
    + apply unheard_emit. destruct E as [->|(n & _ & _ & ->)]; cbn; discriminate.
    + intros _ _. apply unheard_bind; [apply unheard_emit; discriminate|].
      intros; apply unheard_ret.
Qed.

Lemma heard_bind A B (m : M A) (k : A -> M B) a :
  returns m a -> unheard m ->
  (In closing_line (trace (bind m k)) <-> In closing_line (trace (k a))).
Proof.
  intros [Hc _] Hm. rewrite trace_bind, Hc. split.
  - intros H. apply in_app_or in H. destruct H as [H|H]; [now apply Hm in H | exact H].
  - intros H. apply in_or_app. now right.
Qed.

(** X15: the line 'New or changed dependencies detected, manual input
    required.' is printed exactly in the runs that exit non-zero. *)
Theorem closing_line_iff_nonzero depth node_modules lockJson jsonFile tpipJson :
  let run := main depth node_modules lockJson jsonFile tpipJson in
  In (console_error "New or changed dependencies detected, manual input required.")
     (trace run)
  <-> exit_status run <> 0.
Proof.
  cbv zeta. rewrite main_exit_status. fold closing_line. unfold main.
  rewrite (heard_bind _ (returns_log (console_log _) eq_refl))
    by (apply unheard_emit; discriminate).
  rewrite (heard_bind _ (returns_log (console_log _) eq_refl))
    by (apply unheard_emit; discriminate).
  rewrite (heard_bind _ (forOf_main_check tpipJson 0))
    by (apply unheard_forOf; intros; apply main_check_unheard).
  rewrite (heard_bind _ (try_resolve_returns depth lockJson _))
    by apply try_resolve_unheard.
  cbv beta iota zeta.
  rewrite (heard_bind _ (missing_phase_returns depth node_modules lockJson tpipJson _)).
  2:{ cbv zeta. destruct (0 <? length _)%nat; [|apply unheard_ret].
      apply unheard_bind; [apply unheard_emit; discriminate|]. intros _ _.
      apply unheard_bind; [|intros; apply unheard_ret].
      apply unheard_forOf. intros. apply main_push_unheard. }
  cbv beta iota.
  rewrite (heard_bind _ (forOf_main_update node_modules lockJson _ [] _))
    by (apply unheard_forOf; intros; apply main_update_unheard).
  cbv beta iota.
  change (if existsb (license_changed node_modules lockJson)
                (tpipJson ++ map (synthesized node_modules lockJson)
                                 (missing depth lockJson tpipJson))
          then 1
          else if (0 <? length (missing depth lockJson tpipJson))%nat then 2
               else if resolution_failed depth lockJson then 2
                    else if existsb hasFixMe tpipJson then 1 else 0)
    with (final_result depth node_modules lockJson tpipJson).
  destruct (final_result depth node_modules lockJson tpipJson) as [|n].
  - cbn. split; [intros [H|[]]; discriminate H | congruence].
  - cbn. split; [discriminate | intros _; now left].
Qed.

(** ** The greeting *)

Lemma append_last_inj (s s' : string) (c c' : Ascii.ascii) :
  (s ++ String c "")%string = (s' ++ String c' "")%string -> s = s' /\ c = c'.
Proof.
  revert s'. induction s as [|a s IH]; intros [|a' s'] H; cbn in H.
  - injection H as ->. now split.
  - injection H as -> H. destruct s'; discriminate H.
  - injection H as -> H. destruct s; discriminate H.
  - injection H as -> H. destruct (IH s' H) as [-> ->]. now split.
Qed.

Lemma greet_explicit name excited :
  Index.greet (Some (GreetingOptions.mk (Some name) (Some excited)))
  = ("Hello, " ++ name ++ (if excited then "!" else "."))%string.
Proof. unfold Index.greet. cbn. now destruct excited. Qed.

Lemma greet_explicit_inj name excited name' excited' :
  Index.greet (Some (GreetingOptions.mk (Some name) (Some excited)))
  = Index.greet (Some (GreetingOptions.mk (Some name') (Some excited'))) ->
  name = name' /\ excited = excited'.
Proof.
  rewrite !greet_explicit. cbn. intros H. injection H as H.
  destruct excited, excited'; apply append_last_inj in H; destruct H as [-> Hc];
    (split; [reflexivity|]); try reflexivity; discriminate Hc.
Qed.

(** X16: a greeting tells the name and the mood it was made from: two calls
    of greet with explicit options return the same string only if the
    names and the excited flags are the same. *)
Theorem greet_injective name excited name' excited' :
  Index.greet (Some (GreetingOptions.mk (Some name) (Some excited)))
  = Index.greet (Some (GreetingOptions.mk (Some name') (Some excited'))) ->
  name = name' /\ excited = excited'.
Proof. apply greet_explicit_inj. Qed.

Lemma greet_injective_witness : "Bob" = "Bob" /\ false = false.
Proof.
  apply (@greet_injective "Bob" false "Bob" false). reflexivity.
Defined.

Lemma js_or_truthy a b : a <> "" -> js_or (Some a) b = Some a.
Proof. intros Ha. unfold js_or. now rewrite (proj2 (String.eqb_neq a "") Ha). Qed.

Lemma js_or_falsy a b : a = None \/ a = Some "" -> js_or a b = b.
Proof. intros [->| ->]; reflexivity. Qed.

Lemma truthy_or_falsy (a : option string) :
  (exists s, a = Some s /\ s <> "") \/ (a = None \/ a = Some "").
Proof.
  destruct a as [s|]; [|now right; left].
  destruct (String.eqb_spec s "") as [->|Hs]; [now right; right | left; now exists s].
Qed.

(** X17: the entry point greets the command-line argument when it is given
    and not empty, else the variable NAME when it is set and not empty,
    else 'World'; it is excited unless EXCITED is exactly 'false'.  So,
    although greet accepts an empty name, the entry point never greets
    one. *)
Theorem message_chooses_name fromArgv fromEnv EXCITED :
  let excited := strict_neq EXCITED (Some "false") in
  let greeting name :=
    Index.greet (Some (GreetingOptions.mk (Some name) (Some excited))) in
  (forall a, fromArgv = Some a -> a <> "" ->
             Index.message fromArgv fromEnv EXCITED = greeting a) /\
  (fromArgv = None \/ fromArgv = Some "" ->
   forall v, fromEnv = Some v -> v <> "" ->
             Index.message fromArgv fromEnv EXCITED = greeting v) /\
  (fromArgv = None \/ fromArgv = Some "" ->
   fromEnv = None \/ fromEnv = Some "" ->
   Index.message fromArgv fromEnv EXCITED = greeting "World") /\
  (forall mood,
     Index.message fromArgv fromEnv EXCITED
     <> Index.greet (Some (GreetingOptions.mk (Some "") (Some mood)))).
Proof.
  cbv zeta. unfold Index.message.
  split; [|split; [|split]].
  - intros a -> Ha. now rewrite !js_or_truthy.
  - intros Ha v -> Hv. now rewrite (js_or_falsy _ Ha), js_or_truthy.
  - intros Ha Hv. now rewrite (js_or_falsy _ Ha), (js_or_falsy _ Hv).
  - intros mood H.
    assert (Hname : exists n, n <> "" /\
              Index.greet
                (Some {| GreetingOptions.name := js_or (js_or fromArgv fromEnv) None;
                         GreetingOptions.excited :=
                           Some (strict_neq EXCITED (Some "false")) |})
              = Index.greet
                  (Some (GreetingOptions.mk (Some n)
                           (Some (strict_neq EXCITED (Some "false")))))).
    { destruct (truthy_or_falsy fromArgv) as [(a & -> & Ha)|Ha].
      - exists a. split; [exact Ha|]. now rewrite !js_or_truthy.
      - rewrite (js_or_falsy _ Ha).
        destruct (truthy_or_falsy fromEnv) as [(v & -> & Hv)|Hv].
        + exists v. split; [exact Hv|]. now rewrite js_or_truthy.
        + exists "World". split; [discriminate|]. now rewrite (js_or_falsy _ Hv). }
    destruct Hname as (n & Hn & E). rewrite E in H.
    apply greet_explicit_inj in H. destruct H as [-> _]. now apply Hn.
Qed.

Lemma message_chooses_name_witness :
  Index.message (Some "") (Some "Ada") (Some "false") = "Hello, Ada.".
Proof.
  assert (Hv : "Ada" <> "") by discriminate.
  exact (proj1 (proj2 (@message_chooses_name (Some "") (Some "Ada") (Some "false")))
           (or_intror eq_refl) "Ada" eq_refl Hv).
Defined.

(** ** Names of Object.prototype *)

(** X18: when no direct dependency of the root package is in the internal
    namespace, resolution succeeds and the resolved set maps every direct
    dependency of the root to the version range the root records for it,
    except the names of the '@types' namespace and the names of the
    properties of Object.prototype, which it leaves out; it holds no
    other name. *)
Theorem flat_resolution_lookup lockJson depth root :
  locked "" lockJson = Some root ->
  (forall d, In d (Object_keys (dependencies_of root)) ->
             startsWith d "@arm-debug" = false) ->
  exists results,
    completion (resolveInternal_root (S depth) lockJson) = Normal results /\
    forall k,
      js_get k results
      = if startsWith k "@types" || inherited k then None
        else js_get k (dependencies_of root).
Proof.
  intros Hroot Hint.
  unfold resolveInternal_root. cbn [resolveInternal].
  rewrite completion_bind, (proj1 (getPackage_returns "" lockJson)), Hroot.
  fold (dependencies_of root). unfold Object_entries.
  destruct (forOf_flat lockJson (resolveInternal depth lockJson)
              (dependencies_of root) [] Hint) as (results & H & Hget).
  exists results. split; [exact H|]. intros k. now rewrite Hget.
Qed.

Lemma flat_resolution_lookup_witness :
  exists results,
    completion (resolveInternal_root 1 flat_lock) = Normal results /\
    forall k,
      js_get k results
      = if startsWith k "@types" || inherited k then None
        else js_get k [("yargs", "^18.0.0"); ("@types/node", "^20.11.30");
                       ("semver", "^7.6.0")].
Proof.
  apply (@flat_resolution_lookup flat_lock 0
           (Package.mk "1.1.0"
              (Some [("yargs", "^18.0.0"); ("@types/node", "^20.11.30");
                     ("semver", "^7.6.0")]))).
  - reflexivity.
  - simpl. intros d [<-|[<-|[<-|[]]]]; reflexivity.
Defined.

(** X19: the resolver never records a dependency whose name is the name
    of a property of Object.prototype (constructor, toString, valueOf,
    ...): the operator [in] finds such a name in the accumulator from
    the start. *)
Theorem inherited_names_never_resolved lockJson depth results :
  completion (resolveInternal_root depth lockJson) = Normal results ->
  forall k, In k (Object_keys results) -> inherited k = false.
Proof.
  intros H.
  assert (Hinv : (forall k, In k (Object_keys (@nil (string * string))) ->
                            inherited k = false) ->
                 forall k, In k (Object_keys results) -> inherited k = false).
  { revert H.
    apply (resolveInternal_invariant lockJson
             (fun r r' => (forall k, In k (Object_keys r) -> inherited k = false) ->
                          forall k, In k (Object_keys r') -> inherited k = false));
      clear.
    - auto.
    - auto.
    - intros r d v _ _ Hin Hr k Hk. apply (@js_set_new_keys _ d v r Hin) in Hk.
      destruct Hk as [->|Hk]; [|now apply Hr].
      now apply js_in_false in Hin. }
  apply Hinv. intros k [].
Qed.

Lemma inherited_names_never_resolved_witness :
  inherited "yargs" = false.
Proof.
  apply (@inherited_names_never_resolved flat_lock 1
           [("yargs", "^18.0.0"); ("semver", "^7.6.0")]).
  - reflexivity.
  - simpl. left. reflexivity.
Defined.
